(** * Huffman coding (src/buzz.ts): a shallow embedding and its properties

    The TypeScript class [HuffmanCompression] keeps two fields, [root] and
    [encodingMap], that its methods read and overwrite.  The embedding below
    passes that object explicitly: a method that mutates [this] returns the
    new object, a method that only reads it returns its result.

    Strings are Rocq strings.  A [for (const c of s)] loop visits the
    characters of [s] one at a time, each of them a one-character string;
    [chars] produces that sequence.  Numbers that the program uses are
    occurrence counts and sums of them, hence natural numbers. *)

From Stdlib Require Import Ascii String.
From stdpp Require Import base list gmap strings sorting.

#[local] Set Warnings "-clear-no-such-hyp".

(** ** JavaScript values used by the program *)

(** Truthiness of a string: only the empty string is falsy. *)
Definition truthy (s : string) : bool :=
  match s with
  | EmptyString => false
  | String _ _ => true
  end.

(** [v || d] on a string that may be [undefined]. *)
Definition string_or (v : option string) (d : string) : string :=
  match v with
  | Some s => if truthy s then s else d
  | None => d
  end.

(** [v || d] on a number that may be [undefined]: [0] is falsy. *)
Definition number_or (v : option nat) (d : nat) : nat :=
  match v with
  | Some (S n) => S n
  | Some O => d
  | None => d
  end.

(** The values bound by [for (const c of s)]. *)
Definition chars (s : string) : list string :=
  (λ c, String c EmptyString) <$> list_ascii_of_string s.
Global Arguments chars : simpl never.

(** ** [Map<string, number>]

    A JavaScript [Map] iterates in insertion order: [set] on a key that is
    present replaces the value where it stands, [set] on a new key appends
    the entry.  The order matters here, because the entries become the
    initial node queue and a stable sort keeps it among equal counts. *)
Module Map.
Definition t : Type := list (string * nat).

Definition empty : t := [].

Fixpoint get (m : t) (k : string) : option nat :=
  match m with
  | [] => None
  | (k', v) :: m' => if decide (k' = k) then Some v else get m' k
  end.

Fixpoint set (m : t) (k : string) (v : nat) : t :=
  match m with
  | [] => [(k, v)]
  | (k', v') :: m' =>
      if decide (k' = k) then (k', v) :: m' else (k', v') :: set m' k v
  end.

Definition entries (m : t) : list (string * nat) := m.
End Map.

(** ** The tree *)

(** [class HuffmanTreeNode]; a child is a node or [null]. *)
#[warnings="-register-all"]
Inductive HuffmanTreeNode : Type :=
  new_HuffmanTreeNode {
    character : string;
    frequency : nat;
    leftChild : option HuffmanTreeNode;
    rightChild : option HuffmanTreeNode
  }.

(** [class HuffmanCompression]: the two private fields. *)
Record HuffmanCompression : Type :=
  mkHuffmanCompression {
    root : option HuffmanTreeNode;
    encodingMap : gmap string string
  }.

(** [new HuffmanCompression()] *)
Definition new_HuffmanCompression : HuffmanCompression :=
  mkHuffmanCompression None ∅.

(** ** Frequency analysis *)

Definition calculateCharacterFrequencies (text : string) : Map.t :=
  foldl (λ frequencyMap char,
           Map.set frequencyMap char
             (number_or (Map.get frequencyMap char) 0 + 1))
        Map.empty (chars text).

Definition createInitialNodeQueue (frequencyMap : Map.t)
  : list HuffmanTreeNode :=
  (λ entry, new_HuffmanTreeNode entry.1 entry.2 None None)
    <$> Map.entries frequencyMap.

(** ** Tree construction *)

(** [nodeQueue.sort((a, b) => a.frequency - b.frequency)].  The sort of an
    array is stable, and the result of a stable sort is determined by the
    comparator: it is the one of this insertion sort, which puts a node in
    front of the first node of the sorted rest that does not have a
    strictly smaller frequency. *)
Fixpoint insert_by_frequency (a : HuffmanTreeNode)
    (l : list HuffmanTreeNode) : list HuffmanTreeNode :=
  match l with
  | [] => [a]
  | b :: l' =>
      if decide (frequency a ≤ frequency b) then a :: b :: l'
      else b :: insert_by_frequency a l'
  end.

Definition sort_by_frequency (l : list HuffmanTreeNode)
  : list HuffmanTreeNode :=
  foldr insert_by_frequency [] l.

(** The [while (nodeQueue.length > 1)] loop.  Every turn shortens the queue
    by one node, so [fuel] turns are enough for a queue of at most
    [fuel + 1] nodes ([buildLoop_terminates] below). *)
Fixpoint buildLoop (fuel : nat) (nodeQueue : list HuffmanTreeNode)
  : list HuffmanTreeNode :=
  match fuel with
  | O => nodeQueue
  | S fuel' =>
      if decide (1 < length nodeQueue) then
        match sort_by_frequency nodeQueue with
        | leftChild :: rightChild :: nodeQueue' =>
            let parentNode :=
              new_HuffmanTreeNode ""
                (frequency leftChild + frequency rightChild)
                (Some leftChild) (Some rightChild) in
            buildLoop fuel' (nodeQueue' ++ [parentNode])
        | shorter => shorter
        end
      else nodeQueue
  end.

Definition buildHuffmanTree (this : HuffmanCompression) (inputText : string)
  : HuffmanCompression :=
  let frequencyMap := calculateCharacterFrequencies inputText in
  let nodeQueue := createInitialNodeQueue frequencyMap in
  let nodeQueue := buildLoop (length nodeQueue) nodeQueue in
  mkHuffmanCompression (head nodeQueue) (encodingMap this).

(** ** Code generation *)

Fixpoint generateCodesFrom (node : HuffmanTreeNode) (code : string)
    (encodingMap : gmap string string) : gmap string string :=
  match node with
  | new_HuffmanTreeNode c _ l r =>
      let encodingMap :=
        if truthy c then <[c := code]> encodingMap else encodingMap in
      let encodingMap :=
        match l with
        | Some l => generateCodesFrom l (code +:+ "0") encodingMap
        | None => encodingMap
        end in
      match r with
      | Some r => generateCodesFrom r (code +:+ "1") encodingMap
      | None => encodingMap
      end
  end.

Definition generateCodesRecursively (node : option HuffmanTreeNode)
    (code : string) (encodingMap : gmap string string)
  : gmap string string :=
  match node with
  | None => encodingMap
  | Some node => generateCodesFrom node code encodingMap
  end.

Definition generateHuffmanCodes (this : HuffmanCompression)
  : HuffmanCompression :=
  mkHuffmanCompression (root this)
    (generateCodesRecursively (root this) "" ∅).

(** ** Encoding *)

Definition encodeText (this : HuffmanCompression) (inputText : string)
  : string :=
  foldl (λ encodedText char,
           encodedText +:+ string_or (encodingMap this !! char) "")
        "" (chars inputText).

(** ** Decoding *)

(** The body of the decoding loop after the [break] test: one bit moves
    [currentNode] to a child, and a child that carries a character is
    emitted and replaced by the root. *)
Definition decodeStep (root : option HuffmanTreeNode) (bit : string)
    (decodedText : string) (currentNode : HuffmanTreeNode)
  : string * option HuffmanTreeNode :=
  let currentNode :=
    if decide (bit = "0") then leftChild currentNode
    else rightChild currentNode in
  match currentNode with
  | Some node =>
      if truthy (character node)
      then (decodedText +:+ character node, root)
      else (decodedText, Some node)
  | None => (decodedText, None)
  end.

(** The loop over the bits, on the pair of its two variables. *)
Fixpoint decodeLoop (root : option HuffmanTreeNode) (bits : list string)
    (state : string * option HuffmanTreeNode)
  : string * option HuffmanTreeNode :=
  match bits with
  | [] => state
  | bit :: bits' =>
      match state.2 with
      | None => state
      | Some currentNode =>
          decodeLoop root bits' (decodeStep root bit state.1 currentNode)
      end
  end.

Definition decodeText (this : HuffmanCompression) (encodedText : string)
  : string :=
  (decodeLoop (root this) (chars encodedText) ("", root this)).1.

(** The driver's sequence of calls on one text. *)
Definition compress (inputText : string) : HuffmanCompression :=
  generateHuffmanCodes (buildHuffmanTree new_HuffmanCompression inputText).

Definition roundTrip (inputText : string) : string :=
  let huffman := compress inputText in
  decodeText huffman (encodeText huffman inputText).

(** ** Notions used to state the properties *)

(** The different characters of a text, each of them once. *)
Definition distinctSymbols (text : string) : list string :=
  remove_dups (chars text).

(** The order the comparator of the sort induces on nodes. *)
Definition by_frequency (a b : HuffmanTreeNode) : Prop :=
  frequency a ≤ frequency b.

(** A tree as the builder makes them: a node with a character has no
    children, and a node without one has two. *)
Inductive wellFormed : HuffmanTreeNode → Prop :=
  | wellFormed_leaf c f :
      truthy c = true → wellFormed (new_HuffmanTreeNode c f None None)
  | wellFormed_internal f l r :
      wellFormed l → wellFormed r →
      wellFormed (new_HuffmanTreeNode "" f (Some l) (Some r)).

(** [leafAt node path c]: following [path] from [node], [0] to the left and
    [1] to the right, ends on the leaf of character [c]. *)
Inductive leafAt : HuffmanTreeNode → string → string → Prop :=
  | leafAt_here c f :
      truthy c = true → leafAt (new_HuffmanTreeNode c f None None) "" c
  | leafAt_left f l r path c :
      leafAt l path c →
      leafAt (new_HuffmanTreeNode "" f (Some l) (Some r)) (String "0" path) c
  | leafAt_right f l r path c :
      leafAt r path c →
      leafAt (new_HuffmanTreeNode "" f (Some l) (Some r)) (String "1" path) c.

(** The assignments [encodingMap[character] = code] that
    [generateCodesRecursively] performs from [node], in the order in which
    it performs them. *)
Fixpoint assignments (node : HuffmanTreeNode) (code : string)
  : list (string * string) :=
  match node with
  | new_HuffmanTreeNode c _ l r =>
      (if truthy c then [(c, code)] else []) ++
      match l with
      | Some l => assignments l (code +:+ "0")
      | None => []
      end ++
      match r with
      | Some r => assignments r (code +:+ "1")
      | None => []
      end
  end.

Definition assign (encodingMap : gmap string string)
    (l : list (string * string)) : gmap string string :=
  foldl (λ m kv, <[kv.1 := kv.2]> m) encodingMap l.

(** The number of nodes without children below (and including) a node. *)
Fixpoint leafCount (node : HuffmanTreeNode) : nat :=
  match node with
  | new_HuffmanTreeNode _ _ None None => 1
  | new_HuffmanTreeNode _ _ l r =>
      match l with Some l => leafCount l | None => 0 end +
      match r with Some r => leafCount r | None => 0 end
  end.

(** What the counting loop maintains, for the characters [l] seen so far. *)
Record counted (l : list string) (m : Map.t) : Prop := {
  counted_NoDup : NoDup m.*1;
  counted_keys : ∀ k, k ∈ m.*1 ↔ k ∈ l;
  counted_occurrences :
    ∀ k, default 0 (Map.get m k) = length (filter (k =.) l);
  counted_sum : sum_list m.*2 = length l
}.

(** The queue that the builder starts from. *)
Definition initialNodeQueue (text : string) : list HuffmanTreeNode :=
  createInitialNodeQueue (calculateCharacterFrequencies text).

(** A queue node together with the code under which the finished tree
    holds it, and the assignments made below it. *)
Definition placed (z : string * HuffmanTreeNode) : list (string * string) :=
  assignments z.2 z.1.

Definition deeper_first (x y : string * HuffmanTreeNode) : Prop :=
  String.length y.1 ≤ String.length x.1.

(** [arranged queue tree]: [tree] holds every node of [queue] under some
    code; along the sorted queue these codes do not get longer; and a node
    that is not heavier than the two lightest nodes together sits at most
    one level above the lightest one. *)
Definition arranged (queue : list HuffmanTreeNode) (tree : HuffmanTreeNode)
  : Prop :=
  ∃ zs : list (string * HuffmanTreeNode),
    zs.*2 = sort_by_frequency queue ∧
    assignments tree "" ≡ₚ zs ≫= placed ∧
    StronglySorted deeper_first zs ∧
    ∀ a b rest x,
      zs = a :: b :: rest → x ∈ zs →
      frequency x.2 ≤ frequency a.2 + frequency b.2 →
      String.length a.1 ≤ S (String.length x.1).

(** [s1] is a prefix of [s2]. *)
Definition isPrefixOf (s1 s2 : string) : Prop := ∃ s, s2 = s1 +:+ s.

(** Induction on a node with the hypotheses for the children that exist. *)
Fixpoint HuffmanTreeNode_induction (P : HuffmanTreeNode → Prop)
    (step : ∀ c f l r,
       from_option P True l → from_option P True r →
       P (new_HuffmanTreeNode c f l r))
    (node : HuffmanTreeNode) : P node :=
  match node with
  | new_HuffmanTreeNode c f l r =>
      step c f l r
        match l with
        | Some l => HuffmanTreeNode_induction P step l
        | None => I
        end
        match r with
        | Some r => HuffmanTreeNode_induction P step r
        | None => I
        end
  end.

(** ** Further notions: first occurrences, bit strings, weights *)

(** The different elements of a list in the order of their first
    occurrence. *)
Definition firstOccurrences (l : list string) : list string :=
  reverse (remove_dups (reverse l)).

(** The number of occurrences of a character in a text. *)
Definition occurrences (c : string) (text : string) : nat :=
  length (filter (c =.) (chars text)).

(** A string of the characters [0] and [1]. *)
Definition isBits (s : string) : Prop :=
  Forall (λ bit, bit = "0" ∨ bit = "1") (chars s).

(** The nodes without children below a node, each with its depth when the
    node itself sits at [depth]. *)
Fixpoint leavesFrom (node : HuffmanTreeNode) (depth : nat)
  : list (HuffmanTreeNode * nat) :=
  match node with
  | new_HuffmanTreeNode _ _ None None => [(node, depth)]
  | new_HuffmanTreeNode _ _ l r =>
      match l with Some l => leavesFrom l (S depth) | None => [] end ++
      match r with Some r => leavesFrom r (S depth) | None => [] end
  end.

(** The characters and frequencies of the leaves. *)
Definition leaves (node : HuffmanTreeNode) : list (string * nat) :=
  (λ z, (character z.1, frequency z.1)) <$> leavesFrom node 0.

(** The sum over the leaves of frequency times depth. *)
Definition weightedLength (node : HuffmanTreeNode) : nat :=
  sum_list ((λ z, frequency z.1 * z.2) <$> leavesFrom node 0).

(** The number of nodes with a child. *)
Fixpoint internalCount (node : HuffmanTreeNode) : nat :=
  match node with
  | new_HuffmanTreeNode _ _ None None => 0
  | new_HuffmanTreeNode _ _ l r =>
      S (match l with Some l => internalCount l | None => 0 end +
         match r with Some r => internalCount r | None => 0 end)
  end.

(** The frequencies of a merge tree: a node with children carries the sum
    of their frequencies, and its left child is not heavier than its right
    child. *)
Inductive weighted : HuffmanTreeNode → Prop :=
  | weighted_leaf c f : weighted (new_HuffmanTreeNode c f None None)
  | weighted_internal c l r :
      weighted l → weighted r → frequency l ≤ frequency r →
      weighted (new_HuffmanTreeNode c (frequency l + frequency r)
                  (Some l) (Some r)).

(** The depths of the leaves of a binary tree in which every node has two
    children or none: with [2 ^ (h - d)] for a leaf of depth [d], the leaves
    add up to [2 ^ h]. *)
Definition kraft (depths : list nat) : Prop :=
  ∃ h, Forall (λ d, d ≤ h) depths ∧
       sum_list ((λ d, 2 ^ (h - d)) <$> depths) = 2 ^ h.

(** The cost of giving depth [d] to weight [w], for the pairs [(w, d)]. *)
Definition cost (pairs : list (nat * nat)) : nat :=
  sum_list ((λ p, p.1 * p.2) <$> pairs).

(** * Strings and their characters *)

Section strings.
Implicit Types s : string.

Lemma string_app_cons a s1 s2 : String a s1 +:+ s2 = String a (s1 +:+ s2).
Proof. done. Qed.

Lemma string_app_nil_r s : s +:+ "" = s.
Proof.
  induction s as [|a s IH]; [done|].
  by rewrite string_app_cons, IH.
Qed.

Lemma string_app_assoc s1 s2 s3 : (s1 +:+ s2) +:+ s3 = s1 +:+ s2 +:+ s3.
Proof.
  induction s1 as [|a s1 IH]; [done|].
  by rewrite !string_app_cons, IH.
Qed.

Lemma string_length_app s1 s2 :
  String.length (s1 +:+ s2) = String.length s1 + String.length s2.
Proof.
  induction s1 as [|a s1 IH]; [done|].
  rewrite string_app_cons. cbn. by rewrite IH.
Qed.

Lemma chars_cons a s : chars (String a s) = String a "" :: chars s.
Proof. done. Qed.

Lemma chars_app s1 s2 : chars (s1 +:+ s2) = chars s1 ++ chars s2.
Proof.
  induction s1 as [|a s1 IH]; [done|].
  by rewrite string_app_cons, !chars_cons, IH.
Qed.


Lemma chars_truthy s c : c ∈ chars s → truthy c = true.
Proof.
  unfold chars. intros (a & -> & _)%list_elem_of_fmap. done.
Qed.

(** Appending the characters of a string one after the other gives the
    string back. *)
Lemma foldr_app_chars s : foldr String.app "" (chars s) = s.
Proof.
  induction s as [|a s IH]; [done|].
  rewrite chars_cons. cbn. by rewrite IH.
Qed.

Lemma foldl_string_app {A} (g : A → string) (l : list A) s :
  foldl (λ acc x, acc +:+ g x) s l = s +:+ foldr String.app "" (g <$> l).
Proof.
  revert s. induction l as [|x l IH]; intros s; cbn.
  - by rewrite string_app_nil_r.
  - by rewrite IH, string_app_assoc.
Qed.
End strings.

(** * The [Map] operations *)

Section map_facts.
Implicit Types (m : Map.t) (k : string) (v : nat).

Lemma Map_get_set m k v k' :
  Map.get (Map.set m k v) k' = if decide (k = k') then Some v else Map.get m k'.
Proof.
  induction m as [|[k0 v0] m IH]; cbn.
  - repeat case_decide; congruence.
  - destruct (decide (k0 = k)) as [->|Hne]; cbn.
    + repeat case_decide; congruence.
    + rewrite IH. repeat case_decide; congruence.
Qed.

Lemma Map_get_None m k : Map.get m k = None ↔ k ∉ m.*1.
Proof.
  induction m as [|[k0 v0] m IH]; cbn.
  - split; [intros _; apply not_elem_of_nil|done].
  - rewrite not_elem_of_cons. case_decide; subst.
    + split; [done|]. intros [? _]; done.
    + rewrite IH. naive_solver.
Qed.

Lemma Map_get_Some_elem_of m k v : Map.get m k = Some v → (k, v) ∈ m.
Proof.
  induction m as [|[k0 v0] m IH]; cbn; [done|].
  case_decide; subst.
  - intros [= ->]. apply list_elem_of_here.
  - intros ?. apply list_elem_of_further. auto.
Qed.

Lemma Map_elem_of_get m k v : NoDup m.*1 → (k, v) ∈ m → Map.get m k = Some v.
Proof.
  induction m as [|[k0 v0] m IH]; cbn.
  - intros _ ?%elem_of_nil. done.
  - intros [Hk0 Hnd]%NoDup_cons [[= -> ->]|Hin]%elem_of_cons.
    + by rewrite decide_True.
    + rewrite decide_False; [auto|].
      intros ->. apply Hk0. apply list_elem_of_fmap. by exists (k, v).
Qed.

(** [set] keeps the entries in place and appends a new key at the end. *)
Lemma Map_keys_set m k v :
  (Map.set m k v).*1 =
    match Map.get m k with Some _ => m.*1 | None => m.*1 ++ [k] end.
Proof.
  induction m as [|[k0 v0] m IH]; cbn; [done|].
  case_decide; subst; cbn; [done|].
  rewrite IH. by destruct (Map.get m k).
Qed.

Lemma Map_sum_set m k v :
  sum_list (Map.set m k v).*2 + default 0 (Map.get m k) = sum_list m.*2 + v.
Proof.
  induction m as [|[k0 v0] m IH]; cbn; [lia|].
  case_decide; subst; cbn; lia.
Qed.
End map_facts.

(** * Frequency analysis *)


Lemma counted_nil : counted [] Map.empty.
Proof. split; cbn; [constructor|done..]. Qed.

Lemma counted_snoc l m char :
  counted l m →
  counted (l ++ [char])
    (Map.set m char (number_or (Map.get m char) 0 + 1)).
Proof.
  intros [Hnd Hkeys Hocc Hsum].
  assert (number_or (Map.get m char) 0 = default 0 (Map.get m char)) as ->.
  { by destruct (Map.get m char) as [[|n]|]. }
  split.
  - rewrite Map_keys_set. destruct (Map.get m char) eqn:Hget; [done|].
    apply NoDup_app. split_and!; [done| |apply NoDup_singleton].
    intros k Hk ->%list_elem_of_singleton. by apply Map_get_None in Hget.
  - intros k. rewrite Map_keys_set, elem_of_app, list_elem_of_singleton.
    destruct (Map.get m char) eqn:Hget.
    + rewrite Hkeys. split; [auto|]. intros [?| ->]; [done|].
      apply Hkeys. apply dec_stable. intros Hn%Map_get_None. congruence.
    + rewrite elem_of_app, list_elem_of_singleton, Hkeys. done.
  - intros k. rewrite Map_get_set, filter_app, length_app.
    rewrite filter_cons, filter_nil.
    destruct (decide (char = k)) as [->|Hne]; cbn.
    + rewrite decide_True by done. cbn. rewrite Hocc. lia.
    + rewrite decide_False by done. cbn. rewrite Hocc. lia.
  - rewrite length_app. cbn.
    pose proof (Map_sum_set m char (default 0 (Map.get m char) + 1)). lia.
Qed.

Lemma calculateCharacterFrequencies_counted text :
  counted (chars text) (calculateCharacterFrequencies text).
Proof.
  unfold calculateCharacterFrequencies.
  induction (chars text) as [|char l IH] using rev_ind.
  - apply counted_nil.
  - rewrite foldl_snoc. by apply counted_snoc.
Qed.

(** * Sorting the queue *)

Section sorting.
Implicit Types (a b : HuffmanTreeNode) (l : list HuffmanTreeNode).

Lemma insert_by_frequency_Permutation a l : insert_by_frequency a l ≡ₚ a :: l.
Proof.
  induction l as [|b l IH]; cbn; [done|].
  case_decide; [done|]. rewrite IH. apply Permutation_swap.
Qed.

Lemma sort_by_frequency_Permutation l : sort_by_frequency l ≡ₚ l.
Proof.
  induction l as [|a l IH]; cbn; [done|].
  by rewrite insert_by_frequency_Permutation, IH.
Qed.

Lemma length_sort_by_frequency l : length (sort_by_frequency l) = length l.
Proof. by rewrite sort_by_frequency_Permutation. Qed.

Lemma insert_by_frequency_sorted a l :
  StronglySorted by_frequency l →
  StronglySorted by_frequency (insert_by_frequency a l).
Proof.
  induction 1 as [|b l Hl IH Hb]; cbn.
  - repeat constructor.
  - case_decide as Hab.
    + constructor; [by constructor|]. constructor; [done|].
      eapply Forall_impl; [done|]. unfold by_frequency in *. intros; lia.
    + constructor; [done|].
      rewrite insert_by_frequency_Permutation. constructor; [|done].
      unfold by_frequency. lia.
Qed.

Lemma sort_by_frequency_sorted l :
  StronglySorted by_frequency (sort_by_frequency l).
Proof.
  induction l as [|a l IH]; cbn; [constructor|].
  by apply insert_by_frequency_sorted.
Qed.

Lemma insert_by_frequency_least a l :
  Forall (by_frequency a) l → insert_by_frequency a l = a :: l.
Proof. destruct 1; cbn; [done|]. by rewrite decide_True. Qed.

(** The stable sort of a sorted queue to which one node was pushed: the
    node goes behind the nodes that are not heavier and in front of the
    heavier ones, which otherwise stay as they are. *)
Lemma sort_by_frequency_push l a :
  StronglySorted by_frequency l →
  ∃ l1 l2,
    l = l1 ++ l2 ∧
    sort_by_frequency (l ++ [a]) = l1 ++ a :: l2 ∧
    Forall (λ b, frequency b ≤ frequency a) l1 ∧
    Forall (λ b, frequency a < frequency b) l2.
Proof.
  unfold sort_by_frequency. rewrite foldr_app. cbn.
  induction 1 as [|b l Hl IH Hb].
  - by exists [], [].
  - destruct IH as (l1 & l2 & -> & Hsort & Hl1 & Hl2). cbn. rewrite Hsort.
    destruct (decide (frequency b ≤ frequency a)) as [Hba|Hba].
    + exists (b :: l1), l2. split_and!; [done| |by constructor|done].
      apply insert_by_frequency_least.
      apply Forall_app in Hb as [Hb1 Hb2].
      apply Forall_app. split; [done|]. by constructor.
    + assert (l1 = []) as ->.
      { destruct l1 as [|c l1]; [done|].
        apply Forall_cons in Hl1 as [? _], Hb as [? _].
        unfold by_frequency in *. lia. }
      exists [], (b :: l2). cbn. split_and!; [done| |done|].
      * rewrite decide_False by done. f_equal.
        by apply insert_by_frequency_least.
      * constructor; [lia|done].
Qed.
End sorting.

(** [isPrefixOf] is the relation that [String.prefix] decides. *)
Lemma isPrefixOf_prefix s1 s2 : isPrefixOf s1 s2 ↔ String.prefix s1 s2 = true.
Proof.
  revert s2. induction s1 as [|a s1 IH]; intros s2.
  - split; [by destruct s2|]. intros _. by exists s2.
  - destruct s2 as [|b s2]; cbn.
    + split; [by intros [s ?]|done].
    + destruct (ascii_dec a b) as [->|Hne].
      * rewrite <-IH. split; intros [s Hs]; exists s.
        -- rewrite string_app_cons in Hs. congruence.
        -- by rewrite string_app_cons, Hs.
      * split; [|done]. intros [s Hs].
        rewrite string_app_cons in Hs. congruence.
Qed.

(** * The queue of the builder *)


Lemma arranged_singleton node : arranged [node] node.
Proof.
  exists [("", node)]. split_and!; [done| |repeat constructor|done].
  by rewrite bind_singleton.
Qed.

Lemma arranged_merge queue l r rest tree :
  sort_by_frequency queue = l :: r :: rest →
  arranged
    (rest ++ [new_HuffmanTreeNode "" (frequency l + frequency r)
                (Some l) (Some r)]) tree →
  arranged queue tree.
Proof.
  set (p := new_HuffmanTreeNode _ _ _ _).
  intros Hsort (zs' & Hsnd & Hperm & Hsorted & Hnear).
  pose proof (sort_by_frequency_sorted queue) as Hq. rewrite Hsort in Hq.
  apply StronglySorted_cons in Hq as [Hl Hq].
  apply StronglySorted_cons in Hq as [Hr Hrest].
  apply Forall_cons in Hl as [Hlr Hl].
  destruct (sort_by_frequency_push rest p Hrest)
    as (l1 & l2 & -> & Hpush & Hl1 & Hl2).
  rewrite Hpush in Hsnd.
  apply fmap_app_inv in Hsnd as (z1 & z2' & Hz1 & Hz2 & ->).
  symmetry in Hz2.
  apply fmap_cons_inv in Hz2 as ([cp p'] & z2 & Hp & Hz2 & ->).
  cbn in Hp. subst p' l1 l2.
  apply StronglySorted_app in Hsorted as (Hz12 & Hsz1 & Hsz2).
  apply StronglySorted_cons in Hsz2 as [Hpz2 Hsz2].
  (* no node of the new queue is lighter than [r] *)
  assert (∀ x, x ∈ z1 ++ (cp, p) :: z2 → frequency r ≤ frequency x.2)
    as Hheavy.
  { intros x [Hx|[->|Hx]%elem_of_cons]%elem_of_app.
    - eapply (Forall_forall (by_frequency r)); [done|].
      apply elem_of_app. left. by apply list_elem_of_fmap_2.
    - cbn. lia.
    - eapply (Forall_forall (by_frequency r)); [done|].
      apply elem_of_app. right. by apply list_elem_of_fmap_2. }
  (* hence no node of the new queue is more than one level below [p] *)
  assert (∀ x, x ∈ z1 ++ (cp, p) :: z2 →
            String.length x.1 ≤ S (String.length cp)) as Hlevel.
  { intros x Hx.
    destruct (z1 ++ (cp, p) :: z2) as [|a [|b zs]] eqn:Hzs.
    - by apply elem_of_nil in Hx.
    - apply list_elem_of_singleton in Hx as ->.
      destruct z1 as [|? [|??]]; simplify_eq/=. lia.
    - assert (String.length a.1 ≤ S (String.length cp)) as Ha.
      { apply (Hnear a b zs (cp, p)); [done| |].
        - rewrite <-Hzs. apply elem_of_app. right. apply list_elem_of_here.
        - pose proof (Hheavy a ltac:(set_solver)).
          pose proof (Hheavy b ltac:(set_solver)).
          unfold by_frequency in Hlr. cbn. lia. }
      assert (StronglySorted deeper_first (a :: b :: zs)) as Hs.
      { rewrite <-Hzs. apply StronglySorted_app.
        split_and!; [done..|]. by constructor. }
      apply StronglySorted_cons in Hs as [Hs _].
      apply elem_of_cons in Hx as [->|Hx]; [done|].
      pose proof (proj1 (Forall_forall _ _) Hs x Hx) as Hax.
      unfold deeper_first in Hax. lia. }
  exists ((cp +:+ "0", l) :: (cp +:+ "1", r) :: z1 ++ z2).
  split_and!.
  - rewrite Hsort. cbn. by rewrite fmap_app.
  - rewrite Hperm, !bind_app, !bind_cons, bind_app.
    unfold placed at 2 4 5. cbn. solve_Permutation.
  - assert (∀ x, x ∈ z1 ++ z2 →
              String.length x.1 ≤ S (String.length cp)) as Hlevel'.
    { intros x Hx. apply Hlevel. set_solver. }
    constructor; [constructor|].
    + apply StronglySorted_app. split_and!; [|done..].
      intros x1 x2 Hx1 Hx2. apply Hz12; [done|]. by apply list_elem_of_further.
    + apply Forall_forall. intros x Hx. unfold deeper_first. cbn.
      rewrite string_length_app. cbn. specialize (Hlevel' x Hx). lia.
    + constructor.
      * unfold deeper_first. cbn. rewrite !string_length_app. cbn. lia.
      * apply Forall_forall. intros x Hx. unfold deeper_first. cbn.
        rewrite string_length_app. cbn. specialize (Hlevel' x Hx). lia.
  - intros a b zs x [= <- <- <-] Hx Hfreq. cbn in *.
    rewrite string_length_app. cbn.
    apply elem_of_cons in Hx as [->|Hx]; [cbn; rewrite string_length_app; lia|].
    apply elem_of_cons in Hx as [->|Hx]; [cbn; rewrite string_length_app; lia|].
    apply elem_of_app in Hx as [Hx|Hx].
    + pose proof (Hz12 x (cp, p) Hx ltac:(apply list_elem_of_here)) as Hd.
      unfold deeper_first in Hd. cbn in Hd. lia.
    + exfalso.
      pose proof (proj1 (Forall_forall _ _) Hl2 x.2
                    ltac:(by apply list_elem_of_fmap_2)) as Hlt.
      cbn in Hlt. lia.
Qed.

(** The loop ends on a single node when it starts from a queue that is not
    empty and short enough for the fuel, and that node is arranged for the
    queue. *)
Lemma buildLoop_arranged fuel queue :
  queue ≠ [] → length queue ≤ S fuel →
  ∃ tree, buildLoop fuel queue = [tree] ∧ arranged queue tree.
Proof.
  revert queue. induction fuel as [|fuel IH]; intros queue Hne Hlen.
  - destruct queue as [|node [|??]]; [done| |cbn in Hlen; lia].
    exists node. split; [done|]. apply arranged_singleton.
  - cbn. case_decide as Hlong.
    + destruct (sort_by_frequency queue) as [|l [|r rest]] eqn:Hsort.
      1,2: apply (f_equal length) in Hsort;
           rewrite length_sort_by_frequency in Hsort; cbn in Hsort; lia.
      destruct (IH (rest ++ [new_HuffmanTreeNode ""
                      (frequency l + frequency r) (Some l) (Some r)]))
        as (tree & Hloop & Harr).
      * by destruct rest.
      * apply (f_equal length) in Hsort.
        rewrite length_sort_by_frequency in Hsort.
        rewrite length_app. cbn in *. lia.
      * exists tree. split; [done|]. by eapply arranged_merge.
    + destruct queue as [|node [|??]]; [done| |cbn in Hlong; lia].
      exists node. split; [done|]. apply arranged_singleton.
Qed.

Lemma buildLoop_wellFormed fuel queue :
  Forall wellFormed queue → Forall wellFormed (buildLoop fuel queue).
Proof.
  revert queue. induction fuel as [|fuel IH]; intros queue Hwf; [done|].
  cbn. case_decide; [|done].
  rewrite <-sort_by_frequency_Permutation in Hwf.
  destruct (sort_by_frequency queue) as [|l [|r rest]]; [done..|].
  apply Forall_cons_1 in Hwf as [Hl Hwf].
  apply Forall_cons_1 in Hwf as [Hr Hwf].
  apply IH. apply Forall_app. split; [done|].
  repeat constructor; done.
Qed.

(** Without a bound on the fuel the loop may stop early; with enough fuel
    it stops because the queue has at most one node left. *)
Lemma buildLoop_terminates fuel queue :
  length queue ≤ S fuel → length (buildLoop fuel queue) ≤ 1.
Proof.
  intros Hlen. destruct queue as [|node queue].
  { destruct fuel; cbn; [lia|]. case_decide; cbn in *; lia. }
  destruct (buildLoop_arranged fuel (node :: queue)) as (tree & -> & _);
    done.
Qed.

Lemma buildLoop_S fuel queue :
  buildLoop (S fuel) queue =
  if decide (1 < length queue) then
    match sort_by_frequency queue with
    | l :: r :: rest =>
        buildLoop fuel
          (rest ++ [new_HuffmanTreeNode "" (frequency l + frequency r)
                      (Some l) (Some r)])
    | shorter => shorter
    end
  else queue.
Proof. done. Qed.

(** More fuel than the loop needs does not change its result. *)
Lemma buildLoop_fuel fuel queue :
  length queue ≤ S fuel → buildLoop (S fuel) queue = buildLoop fuel queue.
Proof.
  revert queue. induction fuel as [|fuel IH]; intros queue Hlen.
  - cbn. rewrite decide_False; [done|lia].
  - rewrite (buildLoop_S (S fuel)), (buildLoop_S fuel).
    case_decide; [|done].
    destruct (sort_by_frequency queue) as [|l [|r rest]] eqn:Hsort; [done..|].
    apply IH. apply (f_equal length) in Hsort.
    rewrite length_sort_by_frequency in Hsort.
    rewrite length_app. cbn in *. lia.
Qed.

(** * Code generation *)

Lemma assign_snoc m l kv : assign m (l ++ [kv]) = <[kv.1 := kv.2]> (assign m l).
Proof. unfold assign. by rewrite foldl_snoc. Qed.

Lemma assign_app m l1 l2 : assign m (l1 ++ l2) = assign (assign m l1) l2.
Proof. unfold assign. by rewrite foldl_app. Qed.

Lemma assign_lookup_Some m l k v :
  assign m l !! k = Some v → (k, v) ∈ l ∨ m !! k = Some v.
Proof.
  induction l as [|[k' v'] l IH] using rev_ind; [by right|].
  rewrite assign_snoc, elem_of_app, list_elem_of_singleton. cbn.
  destruct (decide (k' = k)) as [->|Hne].
  - rewrite lookup_insert_eq. intros [= ->]. auto.
  - rewrite lookup_insert_ne by done. intros []%IH; auto.
Qed.

Lemma assign_lookup_elem_of m l k :
  k ∈ l.*1 → ∃ v, (k, v) ∈ l ∧ assign m l !! k = Some v.
Proof.
  induction l as [|[k' v'] l IH] using rev_ind.
  { by intros ?%elem_of_nil. }
  rewrite fmap_app, elem_of_app. cbn. rewrite list_elem_of_singleton.
  intros Hk. rewrite assign_snoc. cbn.
  destruct (decide (k' = k)) as [->|Hne].
  - exists v'. rewrite lookup_insert_eq. split; [|done].
    apply elem_of_app. right. apply list_elem_of_here.
  - destruct Hk as [Hk|?]; [|done].
    destruct (IH Hk) as (v & Hv & Hlook). exists v.
    rewrite lookup_insert_ne by done. split; [|done].
    apply elem_of_app. by left.
Qed.

Lemma generateCodesFrom_assign node code m :
  generateCodesFrom node code m = assign m (assignments node code).
Proof.
  revert code m.
  induction node as [c f l r IHl IHr] using HuffmanTreeNode_induction.
  intros code m. cbn. rewrite !assign_app.
  destruct l as [l|], r as [r|]; cbn in IHl, IHr;
    rewrite ?IHl, ?IHr; by destruct (truthy c).
Qed.

Lemma assignments_leafAt node :
  wellFormed node →
  ∀ code c v, (c, v) ∈ assignments node code →
    ∃ path, v = code +:+ path ∧ leafAt node path c.
Proof.
  induction 1 as [c f Hc|f l r Hl IHl Hr IHr]; intros code c' v; cbn.
  - rewrite Hc. cbn. intros [= -> ->]%list_elem_of_singleton.
    exists "". rewrite string_app_nil_r. split; [done|]. by constructor.
  - intros [Hin|Hin]%elem_of_app.
    + destruct (IHl _ _ _ Hin) as (path & -> & Hpath).
      exists (String "0" path). rewrite string_app_assoc.
      split; [done|]. by constructor.
    + destruct (IHr _ _ _ Hin) as (path & -> & Hpath).
      exists (String "1" path). rewrite string_app_assoc.
      split; [done|]. by constructor.
Qed.

Lemma length_assignments node code :
  wellFormed node → length (assignments node code) = leafCount node.
Proof.
  intros Hwf. revert code.
  induction Hwf as [c f Hc|f l r Hl IHl Hr IHr]; intros code; cbn.
  - by rewrite Hc.
  - by rewrite length_app, IHl, IHr.
Qed.

(** A path to a leaf cannot be continued to another leaf. *)
Lemma leafAt_prefix node path c :
  leafAt node path c →
  ∀ s c', leafAt node (path +:+ s) c' → s = "" ∧ c' = c.
Proof.
  induction 1 as [c f Hc|f l r path c Hl IH|f l r path c Hr IH];
    intros s c' Hs.
  - by inv Hs.
  - rewrite string_app_cons in Hs. inv Hs. eauto.
  - rewrite string_app_cons in Hs. inv Hs. eauto.
Qed.

(** * Decoding *)

(** From a node without a character, the bits of a path to a leaf emit the
    character of that leaf and bring the decoder back to the root. *)
Lemma decodeLoop_leafAt root node path c :
  leafAt node path c → character node = "" →
  ∀ bits out,
    decodeLoop root (chars path ++ bits) (out, Some node) =
    decodeLoop root bits (out +:+ c, root).
Proof.
  induction 1 as [c f Hc|f l r path c Hl IH|f l r path c Hr IH];
    intros Hnode bits out.
  - cbn in Hnode. by subst.
  - rewrite chars_cons. cbn [app decodeLoop fst snd]. unfold decodeStep.
    rewrite decide_True by done. cbn [leftChild].
    destruct (truthy (character l)) eqn:Hchar.
    + inv Hl; done.
    + apply IH. by destruct (character l).
  - rewrite chars_cons. cbn [app decodeLoop fst snd]. unfold decodeStep.
    rewrite decide_False by done. cbn [rightChild].
    destruct (truthy (character r)) eqn:Hchar.
    + inv Hr; done.
    + apply IH. by destruct (character r).
Qed.

(** Decoding the codes of a sequence of characters, each of which the table
    maps to the path of its leaf, yields these characters. *)
Lemma decodeLoop_codes tree (table : gmap string string) (l : list string) :
  character tree = "" →
  (∀ c, c ∈ l → ∃ code, table !! c = Some code ∧ leafAt tree code c) →
  ∀ out,
    decodeLoop (Some tree)
      (chars (foldr String.app "" ((λ c, string_or (table !! c) "") <$> l)))
      (out, Some tree)
    = (out +:+ foldr String.app "" l, Some tree).
Proof.
  intros Htree. induction l as [|c l IH]; intros Hl out; cbn.
  - by rewrite string_app_nil_r.
  - destruct (Hl c) as (code & Hcode & Hleaf); [apply list_elem_of_here|].
    rewrite Hcode.
    assert (string_or (Some code) "" = code) as -> by (by destruct code).
    rewrite chars_app, (decodeLoop_leafAt _ _ _ _ Hleaf Htree).
    rewrite IH, string_app_assoc; [done|].
    intros c' Hc'. apply Hl. by apply list_elem_of_further.
Qed.

(** * The pipeline on one text *)

Section pipeline.
Variable text : string.

Lemma initial_queue_leaf node :
  node ∈ initialNodeQueue text →
  ∃ c f, node = new_HuffmanTreeNode c f None None ∧
         c ∈ chars text ∧
         Map.get (calculateCharacterFrequencies text) c = Some f.
Proof.
  pose proof (calculateCharacterFrequencies_counted text) as [Hnd Hkeys _ _].
  intros ([c f] & -> & Hin)%list_elem_of_fmap. exists c, f. cbn.
  split_and!; [done| |by apply Map_elem_of_get].
  apply Hkeys. apply list_elem_of_fmap. by exists (c, f).
Qed.

Lemma initial_queue_elem_of c :
  c ∈ chars text →
  ∃ f, new_HuffmanTreeNode c f None None ∈ initialNodeQueue text.
Proof.
  pose proof (calculateCharacterFrequencies_counted text) as [_ Hkeys _ _].
  intros ([c' f] & -> & Hin)%Hkeys%list_elem_of_fmap. exists f.
  apply list_elem_of_fmap. by exists (c', f).
Qed.

Lemma initial_queue_length :
  length (initialNodeQueue text) = length (distinctSymbols text).
Proof.
  pose proof (calculateCharacterFrequencies_counted text) as [Hnd Hkeys _ _].
  unfold initialNodeQueue, createInitialNodeQueue, Map.entries.
  rewrite length_fmap, <-(length_fmap fst).
  apply Permutation_length, NoDup_Permutation;
    [done|apply NoDup_remove_dups|].
  intros c. unfold distinctSymbols. by rewrite elem_of_remove_dups.
Qed.

Lemma initial_queue_wellFormed : Forall wellFormed (initialNodeQueue text).
Proof.
  apply Forall_forall. intros node (c & f & -> & Hc & _)%initial_queue_leaf.
  constructor. by eapply chars_truthy.
Qed.

(** The shape of the object after [buildHuffmanTree] and
    [generateHuffmanCodes] on a text that is not empty. *)
Lemma compress_structure :
  distinctSymbols text ≠ [] →
  ∃ tree (zs : list (string * HuffmanTreeNode)),
    root (compress text) = Some tree ∧
    wellFormed tree ∧
    encodingMap (compress text) = assign ∅ (assignments tree "") ∧
    zs.*2 = sort_by_frequency (initialNodeQueue text) ∧
    assignments tree "" ≡ₚ (λ z, (character z.2, z.1)) <$> zs ∧
    StronglySorted deeper_first zs.
Proof.
  intros Hne.
  destruct (buildLoop_arranged (length (initialNodeQueue text))
              (initialNodeQueue text))
    as (tree & Hloop & zs & Hzs & Hperm & Hsorted & _); [|lia|].
  { intros Hnil. apply Hne, nil_length_inv.
    by rewrite <-initial_queue_length, Hnil. }
  exists tree, zs.
  assert (root (compress text) = Some tree) as Hroot.
  { unfold compress, generateHuffmanCodes, buildHuffmanTree. cbn [root].
    fold (initialNodeQueue text). by rewrite Hloop. }
  split_and!; [done| | |done| |done].
  - pose proof (buildLoop_wellFormed (length (initialNodeQueue text))
                  (initialNodeQueue text) initial_queue_wellFormed) as Hwf.
    rewrite Hloop in Hwf. by apply Forall_inv in Hwf.
  - unfold compress, generateHuffmanCodes in *. cbn [root encodingMap] in *.
    rewrite Hroot. cbn. apply generateCodesFrom_assign.
  - rewrite Hperm. clear Hperm Hsorted.
    assert (Forall (λ z, z.2 ∈ initialNodeQueue text) zs) as Hleaves.
    { apply Forall_forall. intros z Hz.
      rewrite <-sort_by_frequency_Permutation, <-Hzs.
      by apply list_elem_of_fmap_2. }
    clear Hzs. induction Hleaves as [|z zs Hz _ IH]; [done|].
    rewrite bind_cons, fmap_cons, IH.
    apply initial_queue_leaf in Hz as (c & f & Hz & Hc & _).
    unfold placed. rewrite Hz. cbn. by rewrite (chars_truthy _ _ Hc).
Qed.
End pipeline.

Lemma StronglySorted_both {A B} (R1 : relation A) (R2 : relation B)
    (f : A → B) (l : list A) x y :
  StronglySorted R1 l → StronglySorted R2 (f <$> l) →
  x ∈ l → y ∈ l →
  x = y ∨ (R1 x y ∧ R2 (f x) (f y)) ∨ (R1 y x ∧ R2 (f y) (f x)).
Proof.
  induction l as [|a l IH]; [by intros _ _ ?%elem_of_nil|].
  rewrite fmap_cons, !StronglySorted_cons.
  intros [H1 Hs1] [H2 Hs2] Hx Hy.
  rewrite Forall_forall in H1. rewrite Forall_fmap, Forall_forall in H2.
  apply elem_of_cons in Hx as [->|Hx], Hy as [->|Hy]; [by left| | |by apply IH].
  - right; left. split; [by apply H1|by apply H2].
  - right; right. split; [by apply H1|by apply H2].
Qed.

Section codes.
Variable text : string.
Hypothesis nonempty : distinctSymbols text ≠ [].

(** The tree and the code table of a text that is not empty: the tree is
    well formed and has one leaf for each different character, and the
    table maps every character of the text to the path of a leaf that
    holds it. *)
Lemma compress_codes :
  ∃ tree,
    root (compress text) = Some tree ∧
    wellFormed tree ∧
    leafCount tree = length (distinctSymbols text) ∧
    (∀ c code, encodingMap (compress text) !! c = Some code →
               leafAt tree code c) ∧
    (∀ c, c ∈ chars text → is_Some (encodingMap (compress text) !! c)).
Proof.
  destruct (compress_structure text nonempty)
    as (tree & zs & Hroot & Hwf & Htable & Hzs & Hperm & _).
  exists tree. split_and!; [done..| | |].
  - rewrite <-(length_assignments _ "") by done.
    rewrite Hperm, length_fmap, <-(length_fmap snd), Hzs.
    by rewrite length_sort_by_frequency, initial_queue_length.
  - intros c code. rewrite Htable.
    intros [Hin|Hin]%assign_lookup_Some; [|by rewrite lookup_empty in Hin].
    by apply assignments_leafAt in Hin as (path & -> & Hleaf).
  - intros c (f & Hc)%initial_queue_elem_of.
    rewrite <-sort_by_frequency_Permutation, <-Hzs in Hc.
    apply list_elem_of_fmap in Hc as (z & Hz & Hin).
    destruct (assign_lookup_elem_of ∅ (assignments tree "") c)
      as (v & _ & Hv); [|by rewrite Htable, Hv].
    rewrite Hperm, <-list_fmap_compose.
    apply list_elem_of_fmap. exists z. cbn. by rewrite <-Hz.
Qed.

(** Along the code table, a heavier character never has the longer code. *)
Lemma compress_code_lengths a b fa fb ca cb :
  Map.get (calculateCharacterFrequencies text) a = Some fa →
  Map.get (calculateCharacterFrequencies text) b = Some fb →
  encodingMap (compress text) !! a = Some ca →
  encodingMap (compress text) !! b = Some cb →
  fb < fa → String.length ca ≤ String.length cb.
Proof.
  destruct (compress_structure text nonempty)
    as (tree & zs & Hroot & Hwf & Htable & Hzs & Hperm & Hsorted).
  assert (∀ c f code,
            Map.get (calculateCharacterFrequencies text) c = Some f →
            encodingMap (compress text) !! c = Some code →
            ∃ z, z ∈ zs ∧ z.1 = code ∧ frequency z.2 = f) as Hfind.
  { intros c f code Hf. rewrite Htable.
    intros [Hin|Hin]%assign_lookup_Some; [|by rewrite lookup_empty in Hin].
    rewrite Hperm in Hin.
    apply list_elem_of_fmap in Hin as (z & [= -> ->] & Hz).
    exists z. split_and!; [done..|].
    assert (z.2 ∈ initialNodeQueue text)
      as (c & f' & Hz2 & _ & Hf')%initial_queue_leaf.
    { rewrite <-sort_by_frequency_Permutation, <-Hzs.
      by apply list_elem_of_fmap_2. }
    rewrite Hz2 in Hf |- *. cbn in *. congruence. }
  intros Hfa Hfb Hca Hcb Hlt.
  destruct (Hfind a fa ca Hfa Hca) as (za & Hza & <- & Hwa).
  destruct (Hfind b fb cb Hfb Hcb) as (zb & Hzb & <- & Hwb).
  pose proof (sort_by_frequency_sorted (initialNodeQueue text)) as Hfreq.
  rewrite <-Hzs in Hfreq.
  destruct (StronglySorted_both _ _ snd zs za zb Hsorted Hfreq Hza Hzb)
    as [->|[[_ Hle]|[Hd _]]].
  - lia.
  - unfold by_frequency in Hle. lia.
  - done.
Qed.
End codes.

(** * A text with a single character *)

Lemma single_symbol_root text c this :
  distinctSymbols text = [c] →
  root (buildHuffmanTree this text) =
    Some (new_HuffmanTreeNode c (length (chars text)) None None) ∧
  truthy c = true.
Proof.
  intros Hc.
  pose proof (calculateCharacterFrequencies_counted text)
    as [Hnd Hkeys _ Hsum].
  assert ((calculateCharacterFrequencies text).*1 = [c]) as Hm.
  { apply Permutation_singleton_r. rewrite <-Hc.
    apply NoDup_Permutation; [done|apply NoDup_remove_dups|].
    intros k. unfold distinctSymbols. by rewrite elem_of_remove_dups. }
  assert (c ∈ chars text) as Hin.
  { apply Hkeys. rewrite Hm. apply list_elem_of_here. }
  split; [|by eapply chars_truthy].
  unfold buildHuffmanTree. cbn [root].
  destruct (calculateCharacterFrequencies text) as [|[k n] [|??]];
    simplify_eq/=.
  do 3 f_equal. lia.
Qed.

Lemma decodeLoop_off_tree root bits decoded :
  decodeLoop root bits (decoded, None) = (decoded, None).
Proof. by destruct bits. Qed.

Lemma decodeLoop_app root bits1 bits2 state :
  decodeLoop root (bits1 ++ bits2) state =
  decodeLoop root bits2 (decodeLoop root bits1 state).
Proof.
  revert state. induction bits1 as [|bit bits1 IH]; intros [decoded node].
  - done.
  - cbn. destruct node as [node|]; [apply IH|].
    by rewrite decodeLoop_off_tree.
Qed.

Lemma decodeText_leaf this c f encodedText :
  root this = Some (new_HuffmanTreeNode c f None None) →
  decodeText this encodedText = "".
Proof.
  unfold decodeText. intros ->.
  destruct (chars encodedText) as [|bit bits]; [done|].
  cbn [decodeLoop fst snd]. unfold decodeStep. cbn [leftChild rightChild].
  destruct (decide (bit = "0")); by rewrite decodeLoop_off_tree.
Qed.

(** * The properties of the specification *)

(** With two different characters or more the pipeline is lossless:
    building the tree from the text, generating the codes, encoding the
    text and decoding the result with the same tree returns the text. *)
Lemma roundTrip_two_symbols text :
  2 ≤ length (distinctSymbols text) → roundTrip text = text.
Proof.
  intros Htwo.
  assert (distinctSymbols text ≠ []) as Hne.
  { intros Hnil. rewrite Hnil in Htwo. cbn in Htwo. lia. }
  destruct (compress_codes text Hne)
    as (tree & Hroot & Hwf & Hcount & Hsound & Hcomplete).
  assert (character tree = "") as Hinternal.
  { destruct Hwf; [cbn in Hcount; lia|done]. }
  unfold roundTrip, decodeText, encodeText. cbn zeta.
  rewrite Hroot, foldl_string_app.
  change ("" +:+ ?s) with s.
  rewrite (decodeLoop_codes tree _ (chars text) Hinternal).
  - cbn [fst]. apply foldr_app_chars.
  - intros c [code Hcode]%Hcomplete. eauto.
Qed.

(** The empty text comes back as well. *)
Lemma roundTrip_empty : roundTrip "" = "".
Proof. done. Qed.

(** With a single character, whatever its number of occurrences, the
    encoded text is empty and so is the decoded one. *)
Lemma roundTrip_single_symbol text :
  length (distinctSymbols text) = 1 →
  encodeText (compress text) text = "" ∧ roundTrip text = "" ∧ text ≠ "".
Proof.
  intros Hone.
  destruct (distinctSymbols text) as [|c [|??]] eqn:Hc; [done| |done].
  destruct (single_symbol_root text c new_HuffmanCompression Hc)
    as [Hroot Htruthy].
  split_and!.
  - unfold encodeText. rewrite foldl_string_app.
    change ("" +:+ ?s) with s.
    assert (∀ k, string_or (encodingMap (compress text) !! k) "" = "")
      as Hcode.
    { intros k. unfold compress, generateHuffmanCodes. cbn [encodingMap].
      rewrite Hroot. cbn. rewrite Htruthy.
      destruct (decide (c = k)) as [->|Hne].
      - by rewrite lookup_insert_eq.
      - by rewrite lookup_insert_ne, lookup_empty. }
    generalize (chars text). intros l.
    induction l as [|k l IH]; [done|].
    rewrite fmap_cons. cbn [foldr]. by rewrite IH, Hcode.
  - unfold roundTrip. by eapply decodeText_leaf.
  - intros ->. done.
Qed.

(** C1 does not hold of the program: the text ["aaa"] is not empty, its
    only character gets the empty code, the encoded text is empty, and
    decoding it returns the empty text instead of ["aaa"]. *)
Theorem C1_round_trip_single_symbol :
  chars "aaa" ≠ [] ∧
  encodingMap (compress "aaa") !! "a" = Some "" ∧
  encodeText (compress "aaa") "aaa" = "" ∧
  roundTrip "aaa" = "" ∧
  roundTrip "aaa" ≠ "aaa".
Proof. split_and!; by vm_compute. Qed.

(** C2: for every input with at least two different characters, and every
    two different characters of the generated code table, neither code is a
    prefix of the other. *)
Theorem C2_prefix_free text a b ca cb :
  2 ≤ length (distinctSymbols text) →
  a ≠ b →
  encodingMap (compress text) !! a = Some ca →
  encodingMap (compress text) !! b = Some cb →
  ¬ isPrefixOf ca cb ∧ ¬ isPrefixOf cb ca.
Proof.
  intros Htwo Hab Ha Hb.
  assert (distinctSymbols text ≠ []) as Hne.
  { intros Hnil. rewrite Hnil in Htwo. cbn in Htwo. lia. }
  destruct (compress_codes text Hne) as (tree & _ & _ & _ & Hsound & _).
  apply Hsound in Ha, Hb.
  split; intros [s ->].
  - by destruct (leafAt_prefix _ _ _ Ha _ _ Hb) as [_ ->].
  - by destruct (leafAt_prefix _ _ _ Hb _ _ Ha) as [_ ->].
Qed.

Lemma C2_prefix_free_witness :
  (2 ≤ length (distinctSymbols "aaabbc") ∧ "b" ≠ "c" ∧
   encodingMap (compress "aaabbc") !! "b" = Some "11" ∧
   encodingMap (compress "aaabbc") !! "c" = Some "10") ∧
  ¬ isPrefixOf "11" "10" ∧ ¬ isPrefixOf "10" "11".
Proof.
  split; [split_and!; [vm_compute; lia|done|by vm_compute..]|].
  apply (C2_prefix_free "aaabbc" "b" "c" "11" "10");
    [vm_compute; lia|done|by vm_compute..].
Defined.

(** C3: for every input, in the code table of the pipeline a character
    with a strictly higher frequency never has a strictly longer code
    than a character with a strictly lower frequency. *)
Theorem C3_code_length_ordering text a b fa fb ca cb :
  Map.get (calculateCharacterFrequencies text) a = Some fa →
  Map.get (calculateCharacterFrequencies text) b = Some fb →
  encodingMap (compress text) !! a = Some ca →
  encodingMap (compress text) !! b = Some cb →
  fb < fa →
  String.length ca ≤ String.length cb.
Proof.
  intros Hfa. apply compress_code_lengths; [|done].
  pose proof (calculateCharacterFrequencies_counted text) as [_ Hkeys _ _].
  assert (a ∈ distinctSymbols text) as Ha.
  { apply elem_of_remove_dups, Hkeys.
    apply Map_get_Some_elem_of in Hfa.
    apply list_elem_of_fmap. by exists (a, fa). }
  intros Hnil. rewrite Hnil in Ha. by apply elem_of_nil in Ha.
Qed.

Lemma C3_code_length_ordering_witness :
  (Map.get (calculateCharacterFrequencies "aaabbc") "a" = Some 3 ∧
   Map.get (calculateCharacterFrequencies "aaabbc") "c" = Some 1 ∧
   encodingMap (compress "aaabbc") !! "a" = Some "0" ∧
   encodingMap (compress "aaabbc") !! "c" = Some "10" ∧
   1 < 3) ∧
  String.length "0" ≤ String.length "10".
Proof.
  split; [split_and!; [by vm_compute..|lia]|].
  apply (C3_code_length_ordering "aaabbc" "a" "c" 3 1 "0" "10");
    [by vm_compute..|lia].
Defined.

(** C4: for every input, the frequency table maps each character that
    occurs in the input to a positive count, its keys are exactly the
    characters that occur in the input (each of them once), and its counts
    add up to the length of the input. *)
Theorem C4_frequency_table text :
  let frequencyMap := calculateCharacterFrequencies text in
  (∀ c, c ∈ chars text →
        ∃ n, Map.get frequencyMap c = Some n ∧ 0 < n) ∧
  NoDup frequencyMap.*1 ∧
  (∀ c, c ∈ frequencyMap.*1 ↔ c ∈ chars text) ∧
  sum_list frequencyMap.*2 = length (chars text).
Proof.
  intros frequencyMap.
  destruct (calculateCharacterFrequencies_counted text)
    as [Hnd Hkeys Hocc Hsum].
  split_and!; [|done..].
  intros c Hc. specialize (Hocc c). fold frequencyMap in Hocc.
  assert (c ∈ filter (c =.) (chars text)) as Hfilter.
  { by apply list_elem_of_filter. }
  destruct (filter (c =.) (chars text)) as [|? l];
    [by apply elem_of_nil in Hfilter|].
  destruct (Map.get frequencyMap c) as [n|]; cbn in Hocc; [|done].
  exists n. split; [done|lia].
Qed.

(** The count of a character is the number of its occurrences. *)
Lemma calculateCharacterFrequencies_occurrences text c n :
  Map.get (calculateCharacterFrequencies text) c = Some n →
  n = length (filter (c =.) (chars text)).
Proof.
  intros Hget.
  destruct (calculateCharacterFrequencies_counted text) as [_ _ Hocc _].
  specialize (Hocc c). by rewrite Hget in Hocc.
Qed.

(** C5: for an input with at least two different characters the built
    tree has as many leaves as the input has different characters; for an
    input with exactly one, the built tree is a single leaf that holds
    it. *)
Theorem C5_leaf_count text this :
  (2 ≤ length (distinctSymbols text) →
   ∃ tree, root (buildHuffmanTree this text) = Some tree ∧
           leafCount tree = length (distinctSymbols text)) ∧
  (∀ c, distinctSymbols text = [c] →
        root (buildHuffmanTree this text) =
          Some (new_HuffmanTreeNode c (length (chars text)) None None)).
Proof.
  split.
  - intros Htwo.
    assert (distinctSymbols text ≠ []) as Hne.
    { intros Hnil. rewrite Hnil in Htwo. cbn in Htwo. lia. }
    destruct (compress_codes text Hne) as (tree & Hroot & _ & Hcount & _).
    by exists tree.
  - intros c Hc. by apply single_symbol_root.
Qed.

Lemma C5_leaf_count_witness :
  (2 ≤ length (distinctSymbols "aaabbc") ∧
   ∃ tree, root (buildHuffmanTree new_HuffmanCompression "aaabbc")
             = Some tree ∧
           leafCount tree = length (distinctSymbols "aaabbc")) ∧
  (distinctSymbols "aaa" = ["a"] ∧
   root (buildHuffmanTree new_HuffmanCompression "aaa") =
     Some (new_HuffmanTreeNode "a" (length (chars "aaa")) None None)).
Proof.
  split; (split; [vm_compute; first [lia|done]|]).
  - apply (proj1 (C5_leaf_count "aaabbc" new_HuffmanCompression)).
    vm_compute. lia.
  - by apply (proj2 (C5_leaf_count "aaa" new_HuffmanCompression) "a").
Defined.

(** C6: for every input with exactly one different character, code
    generation gives that character the empty string as its code, and the
    table has no other entry. *)
Theorem C6_single_symbol_code text c :
  distinctSymbols text = [c] →
  encodingMap (compress text) = {[ c := "" ]}.
Proof.
  intros Hc.
  destruct (single_symbol_root text c new_HuffmanCompression Hc)
    as [Hroot Htruthy].
  unfold compress, generateHuffmanCodes. cbn [encodingMap].
  rewrite Hroot. cbn. by rewrite Htruthy.
Qed.

Lemma C6_single_symbol_code_witness :
  distinctSymbols "aaa" = ["a"] ∧
  encodingMap (compress "aaa") = {[ "a" := "" ]}.
Proof.
  split; [by vm_compute|]. by apply (C6_single_symbol_code "aaa" "a").
Defined.

(** C7: for every input and every code table, the encoder returns the
    codes of the input characters that have an entry in the table, in
    input order and one after the other; the characters without an entry
    contribute nothing. *)
Theorem C7_encode_skips_missing this inputText :
  encodeText this inputText =
  foldr String.app ""
    (omap (λ char, encodingMap this !! char) (chars inputText)).
Proof.
  unfold encodeText. rewrite foldl_string_app.
  change ("" +:+ ?s) with s.
  induction (chars inputText) as [|char l IH]; [done|].
  cbn. rewrite IH.
  by destruct (encodingMap this !! char) as [[|??]|].
Qed.

(** C8: for every bit sequence and every tree, when a bit moves the
    decoder from its current node to a child that is absent, decoding
    stops and returns what was decoded before that bit, whatever
    follows. *)
Theorem C8_decode_stops_off_tree this bits bit rest decoded node :
  decodeLoop (root this) (chars bits) ("", root this) = (decoded, Some node) →
  (if decide (String bit "" = "0") then leftChild node
   else rightChild node) = None →
  decodeText this (bits +:+ String bit rest) = decoded.
Proof.
  intros Hbits Hchild. unfold decodeText.
  rewrite chars_app, decodeLoop_app, Hbits, chars_cons.
  cbn [decodeLoop fst snd]. unfold decodeStep. rewrite Hchild.
  by rewrite decodeLoop_off_tree.
Qed.

Lemma C8_decode_stops_off_tree_witness :
  let node :=
    new_HuffmanTreeNode "" 1
      (Some (new_HuffmanTreeNode "a" 1 None None)) None in
  let this := mkHuffmanCompression (Some node) ∅ in
  (decodeLoop (root this) (chars "0") ("", root this) = ("a", Some node) ∧
   (if decide ("1" = "0") then leftChild node else rightChild node) = None) ∧
  decodeText this "010" = "a".
Proof.
  intros node this. split; [by vm_compute|].
  by apply (C8_decode_stops_off_tree this "0" "1"%char "0" "a" node).
Defined.

(** C9: on the empty input every stage yields an empty result: the
    frequency table is empty, there is no tree, the code table is empty,
    encoding the empty text yields the empty bit string, and decoding the
    empty bit string without a tree yields the empty text. *)
Theorem C9_empty_input this :
  calculateCharacterFrequencies "" = Map.empty ∧
  root (buildHuffmanTree this "") = None ∧
  encodingMap (generateHuffmanCodes (buildHuffmanTree this "")) = ∅ ∧
  encodeText this "" = "" ∧
  decodeText (mkHuffmanCompression None (encodingMap this)) "" = "".
Proof. done. Qed.

(** C10: when the input has exactly one different character, so that the
    tree is a single leaf, the decoder returns the empty text for every
    bit sequence. *)
Theorem C10_single_leaf_decodes_nothing text encodedText :
  length (distinctSymbols text) = 1 →
  decodeText (compress text) encodedText = "".
Proof.
  intros Hone.
  destruct (distinctSymbols text) as [|c [|??]] eqn:Hc; [done| |done].
  destruct (single_symbol_root text c new_HuffmanCompression Hc)
    as [Hroot _].
  by eapply decodeText_leaf.
Qed.

Lemma C10_single_leaf_decodes_nothing_witness :
  length (distinctSymbols "aaa") = 1 ∧
  decodeText (compress "aaa") "0110" = "".
Proof.
  split; [by vm_compute|].
  by apply (C10_single_leaf_decodes_nothing "aaa" "0110").
Defined.

(** * Further properties of the program *)

(** ** The frequency table and the initial queue *)

Lemma firstOccurrences_snoc l c :
  firstOccurrences (l ++ [c]) =
  if decide (c ∈ l) then firstOccurrences l else firstOccurrences l ++ [c].
Proof.
  unfold firstOccurrences. rewrite reverse_snoc. cbn [remove_dups].
  destruct (decide_rel elem_of c (reverse l)) as [Hc|Hc];
    rewrite elem_of_reverse in Hc.
  - by rewrite decide_True.
  - by rewrite decide_False, reverse_cons.
Qed.

Lemma counting_keys l :
  (foldl (λ frequencyMap char,
            Map.set frequencyMap char
              (number_or (Map.get frequencyMap char) 0 + 1))
         Map.empty l).*1 = firstOccurrences l.
Proof.
  induction l as [|c l IH] using rev_ind; [done|].
  rewrite foldl_snoc, Map_keys_set, firstOccurrences_snoc, IH.
  destruct (Map.get _ c) eqn:Hget.
  - rewrite decide_True; [done|].
    apply dec_stable. intros Hc. rewrite <-elem_of_reverse in Hc.
    rewrite <-elem_of_remove_dups, <-elem_of_reverse in Hc.
    fold (firstOccurrences l) in Hc. rewrite <-IH in Hc.
    apply Map_get_None in Hc. congruence.
  - rewrite decide_False; [done|].
    apply Map_get_None in Hget. rewrite IH in Hget.
    unfold firstOccurrences in Hget.
    by rewrite elem_of_reverse, elem_of_remove_dups, elem_of_reverse in Hget.
Qed.

Lemma entries_of_keys (m : Map.t) (g : string → nat) :
  Forall (λ kv, kv.2 = g kv.1) m → m = (λ k, (k, g k)) <$> m.*1.
Proof.
  induction 1 as [|[k v] m Hkv _ IH]; [done|].
  cbn in *. by rewrite <-IH, Hkv.
Qed.

(** X3: the frequency table gives a character of the text the number of
    its occurrences, and has no entry for any other character. *)
Theorem X3_frequency_lookup text c :
  Map.get (calculateCharacterFrequencies text) c =
  if decide (c ∈ chars text) then Some (occurrences c text) else None.
Proof.
  destruct (calculateCharacterFrequencies_counted text)
    as [_ Hkeys Hocc _].
  specialize (Hocc c). case_decide as Hc.
  - destruct (Map.get _ c) as [n|] eqn:Hget.
    { unfold occurrences. by rewrite <-Hocc. }
    apply Map_get_None in Hget. by rewrite Hkeys in Hget.
  - apply Map_get_None. by rewrite Hkeys.
Qed.

Lemma initial_queue_first_occurrences text :
  createInitialNodeQueue (calculateCharacterFrequencies text) =
  (λ c, new_HuffmanTreeNode c (occurrences c text) None None)
    <$> firstOccurrences (chars text).
Proof.
  unfold createInitialNodeQueue, Map.entries.
  rewrite <-(counting_keys (chars text)).
  fold (calculateCharacterFrequencies text).
  rewrite (entries_of_keys (calculateCharacterFrequencies text)
             (λ c, occurrences c text)) at 1.
  - by rewrite <-list_fmap_compose.
  - destruct (calculateCharacterFrequencies_counted text)
      as [Hnd _ Hocc _].
    apply Forall_forall. intros [k v] Hkv. cbn.
    apply (Map_elem_of_get _ _ _ Hnd) in Hkv.
    specialize (Hocc k). by rewrite Hkv in Hocc.
Qed.

(** X4: the initial queue holds one childless node for each different
    character of the text, in the order in which the characters first
    occur, with the number of its occurrences as frequency. *)
Theorem X4_initial_queue text :
  createInitialNodeQueue (calculateCharacterFrequencies text) =
  (λ c, new_HuffmanTreeNode c (occurrences c text) None None)
    <$> firstOccurrences (chars text).
Proof. apply initial_queue_first_occurrences. Qed.

(** ** The builder *)

Lemma chars_nil s : chars s = [] → s = "".
Proof. by destruct s. Qed.

Lemma distinctSymbols_nil text : distinctSymbols text = [] → text = "".
Proof.
  intros Hnil. apply chars_nil.
  destruct (chars text) as [|c l] eqn:Hc; [done|].
  assert (c ∈ distinctSymbols text) as Hin.
  { unfold distinctSymbols. rewrite Hc.
    apply elem_of_remove_dups, list_elem_of_here. }
  rewrite Hnil in Hin. by apply elem_of_nil in Hin.
Qed.

(** X5: [buildHuffmanTree] leaves the object without a tree exactly when
    the text is empty; it never touches the code table. *)
Theorem X5_tree_iff_nonempty this text :
  (root (buildHuffmanTree this text) = None ↔ text = "") ∧
  encodingMap (buildHuffmanTree this text) = encodingMap this.
Proof.
  split; [|done]. split; [|by intros ->].
  intros Hroot. apply distinctSymbols_nil.
  destruct (distinctSymbols text) eqn:Hd; [done|].
  destruct (compress_structure text) as (tree & _ & Htree & _);
    [by rewrite Hd|].
  change (root (compress text)) with (root (buildHuffmanTree this text))
    in Htree.
  congruence.
Qed.

(** X6: the merging loop ends by its own test: from a queue of at most
    [fuel + 1] nodes it returns a single node when the queue is not empty
    and no node when it is, and turns beyond [fuel] change nothing. *)
Theorem X6_loop_terminates fuel queue :
  length queue ≤ S fuel →
  length (buildLoop fuel queue) = length queue `min` 1 ∧
  ∀ more, buildLoop (fuel + more) queue = buildLoop fuel queue.
Proof.
  intros Hlen. split.
  - destruct queue as [|node queue].
    + destruct fuel; [done|].
      rewrite buildLoop_S, decide_False; [done|cbn; lia].
    + destruct (buildLoop_arranged fuel (node :: queue)) as (tree & -> & _);
        [done..|].
      cbn. lia.
  - intros more. induction more as [|more IH].
    + by rewrite Nat.add_0_r.
    + rewrite Nat.add_succ_r, buildLoop_fuel; [done|lia].
Qed.

Lemma X6_loop_terminates_witness :
  let queue := createInitialNodeQueue [("a", 3); ("b", 2); ("c", 1)] in
  length queue ≤ 3 ∧
  length (buildLoop 2 queue) = length queue `min` 1 ∧
  ∀ more, buildLoop (2 + more) queue = buildLoop 2 queue.
Proof.
  intros queue. split; [cbn; lia|].
  apply (X6_loop_terminates 2 queue). cbn. lia.
Defined.

(** ** The frequencies in the tree *)

Lemma leavesFrom_shift node :
  ∀ depth,
    leavesFrom node depth =
    (λ z, (z.1, z.2 + depth)) <$> leavesFrom node 0.
Proof.
  induction node as [c f l r IHl IHr] using HuffmanTreeNode_induction.
  intros depth.
  assert (∀ n : HuffmanTreeNode,
            (∀ d, leavesFrom n d = (λ z, (z.1, z.2 + d)) <$> leavesFrom n 0) →
            leavesFrom n (S depth) =
            (λ z, (z.1, z.2 + depth)) <$> leavesFrom n 1) as Hstep.
  { intros n IH. rewrite (IH (S depth)), (IH 1), <-list_fmap_compose.
    apply list_fmap_ext. intros _ [n' d] _. cbn. f_equal. lia. }
  destruct l as [l|], r as [r|]; cbn in *;
    rewrite ?fmap_app, ?app_nil_r; f_equal; auto.
Qed.

Lemma leaves_internal c f l r :
  leaves (new_HuffmanTreeNode c f (Some l) (Some r)) = leaves l ++ leaves r.
Proof.
  unfold leaves. cbn. rewrite fmap_app.
  rewrite (leavesFrom_shift l 1), (leavesFrom_shift r 1).
  by rewrite <-!list_fmap_compose.
Qed.

Lemma buildLoop_weights fuel queue :
  Forall weighted queue →
  Forall weighted (buildLoop fuel queue) ∧
  sum_list (frequency <$> buildLoop fuel queue) =
    sum_list (frequency <$> queue) ∧
  buildLoop fuel queue ≫= leaves ≡ₚ queue ≫= leaves.
Proof.
  revert queue. induction fuel as [|fuel IH]; intros queue Hw; [done|].
  rewrite buildLoop_S. case_decide; [|done].
  pose proof (sort_by_frequency_sorted queue) as Hsorted.
  pose proof (sort_by_frequency_Permutation queue) as Hperm.
  destruct (sort_by_frequency queue) as [|l [|r rest]].
  1,2: apply Permutation_length in Hperm; cbn in *; lia.
  rewrite <-Hperm in Hw. rewrite <-Hperm.
  apply Forall_cons_1 in Hw as [Hl Hw].
  apply Forall_cons_1 in Hw as [Hr Hw].
  apply StronglySorted_cons in Hsorted as [Hlr _].
  apply Forall_cons_1 in Hlr as [Hlr _].
  destruct (IH (rest ++ [new_HuffmanTreeNode ""
                  (frequency l + frequency r) (Some l) (Some r)]))
    as (IHw & IHsum & IHleaves).
  { apply Forall_app. split; [done|]. repeat constructor; done. }
  split_and!; [done| |].
  - rewrite IHsum, fmap_app, sum_list_with_app. cbn. lia.
  - rewrite IHleaves, bind_app, bind_singleton, leaves_internal.
    rewrite !bind_cons. solve_Permutation.
Qed.

Lemma initial_queue_weights text :
  Forall weighted (initialNodeQueue text) ∧
  sum_list (frequency <$> initialNodeQueue text) = length (chars text) ∧
  initialNodeQueue text ≫= leaves = calculateCharacterFrequencies text.
Proof.
  destruct (calculateCharacterFrequencies_counted text) as [_ _ _ Hsum].
  unfold initialNodeQueue, createInitialNodeQueue, Map.entries.
  rewrite <-Hsum. clear Hsum.
  induction (calculateCharacterFrequencies text) as [|[k v] m IH].
  - split_and!; [constructor|done..].
  - destruct IH as (IHw & IHsum & IHleaves).
    split_and!; [by repeat constructor|by cbn; rewrite IHsum|].
    rewrite fmap_cons, bind_cons, IHleaves. done.
Qed.

(** X7: in the tree that [buildHuffmanTree] leaves in the object, every
    node with children carries the sum of its children's frequencies and
    its left child is not heavier than its right child; the root carries
    the number of characters of the text; and the leaves carry exactly the
    entries of the frequency table. *)
Theorem X7_tree_frequencies this text :
  let tree := root (buildHuffmanTree this text) in
  from_option weighted True tree ∧
  from_option frequency 0 tree = length (chars text) ∧
  from_option leaves [] tree ≡ₚ
    Map.entries (calculateCharacterFrequencies text).
Proof.
  unfold buildHuffmanTree. cbn [root]. fold (initialNodeQueue text).
  destruct (initial_queue_weights text) as (Hw & Hsum & Hleaves).
  destruct (buildLoop_weights (length (initialNodeQueue text))
              (initialNodeQueue text) Hw) as (Hw' & Hsum' & Hleaves').
  pose proof (buildLoop_terminates (length (initialNodeQueue text))
                (initialNodeQueue text) ltac:(lia)) as Hone.
  rewrite Hsum in Hsum'. rewrite Hleaves in Hleaves'.
  unfold Map.entries.
  destruct (buildLoop _ _) as [|tree [|??]]; [| |cbn in Hone; lia].
  - cbn in *. by rewrite <-Hsum', <-Hleaves'.
  - cbn in *. rewrite app_nil_r in Hleaves'.
    split_and!; [by apply Forall_inv in Hw'|lia|done].
Qed.

(** ** The shape of the tree *)

Lemma wellFormed_leafCount node : wellFormed node → 0 < leafCount node.
Proof. induction 1; cbn; lia. Qed.

Lemma wellFormed_internalCount node :
  wellFormed node → internalCount node + 1 = leafCount node.
Proof. induction 1; cbn; lia. Qed.

Lemma leafAt_length node path c :
  wellFormed node → leafAt node path c → String.length path < leafCount node.
Proof.
  intros Hwf Hleaf.
  induction Hleaf as [c f Hc|f l r path c Hl IH|f l r path c Hr IH].
  - cbn. lia.
  - inv Hwf. specialize (IH ltac:(done)).
    pose proof (wellFormed_leafCount r ltac:(done)). cbn. lia.
  - inv Hwf. specialize (IH ltac:(done)).
    pose proof (wellFormed_leafCount l ltac:(done)). cbn. lia.
Qed.

(** X8: for a text that is not empty, the tree has a node with a character
    and no children for each different character, and one node less
    without a character and with two children; there are no other
    nodes. *)
Theorem X8_tree_shape this text :
  text ≠ "" →
  ∃ tree,
    root (buildHuffmanTree this text) = Some tree ∧
    wellFormed tree ∧
    leafCount tree = length (distinctSymbols text) ∧
    internalCount tree + 1 = length (distinctSymbols text).
Proof.
  intros Hne.
  assert (distinctSymbols text ≠ []) as Hd.
  { intros Hnil. by apply distinctSymbols_nil in Hnil. }
  destruct (compress_codes text Hd) as (tree & Hroot & Hwf & Hcount & _).
  exists tree. split_and!; [done..|].
  by rewrite wellFormed_internalCount.
Qed.

Lemma X8_tree_shape_witness :
  "aaabbc" ≠ "" ∧
  ∃ tree,
    root (buildHuffmanTree new_HuffmanCompression "aaabbc") = Some tree ∧
    wellFormed tree ∧
    leafCount tree = length (distinctSymbols "aaabbc") ∧
    internalCount tree + 1 = length (distinctSymbols "aaabbc").
Proof.
  split; [done|].
  by apply (X8_tree_shape new_HuffmanCompression "aaabbc").
Defined.

(** X9: in the code table of a text, a code is shorter than the number of
    different characters of the text. *)
Theorem X9_code_length_bound text c code :
  encodingMap (compress text) !! c = Some code →
  String.length code < length (distinctSymbols text).
Proof.
  intros Hcode.
  assert (distinctSymbols text ≠ []) as Hd.
  { intros ->%distinctSymbols_nil. by vm_compute in Hcode. }
  destruct (compress_codes text Hd)
    as (tree & _ & Hwf & <- & Hsound & _).
  apply (leafAt_length tree code c); [done|]. by apply Hsound.
Qed.

Lemma X9_code_length_bound_witness :
  encodingMap (compress "aaabbc") !! "c" = Some "10" ∧
  String.length "10" < length (distinctSymbols "aaabbc").
Proof.
  split; [by vm_compute|].
  by apply (X9_code_length_bound "aaabbc" "c" "10").
Defined.

(** ** The encoder *)


Lemma encodeText_foldr this inputText :
  encodeText this inputText =
  foldr String.app ""
    ((λ char, string_or (encodingMap this !! char) "") <$> chars inputText).
Proof. unfold encodeText. by rewrite foldl_string_app. Qed.


Lemma Map_weighted_sum_set (m : Map.t) (g : string → nat) k v :
  sum_list ((λ kv, kv.2 * g kv.1) <$> Map.set m k v) +
    default 0 (Map.get m k) * g k =
  sum_list ((λ kv, kv.2 * g kv.1) <$> m) + v * g k.
Proof.
  induction m as [|[k0 v0] m IH]; cbn; [lia|].
  case_decide; subst; cbn; lia.
Qed.

Lemma counting_weighted_sum (g : string → nat) (l : list string) :
  sum_list (g <$> l) =
  sum_list ((λ kv, kv.2 * g kv.1) <$>
            foldl (λ frequencyMap char,
                     Map.set frequencyMap char
                       (number_or (Map.get frequencyMap char) 0 + 1))
                  Map.empty l).
Proof.
  induction l as [|c l IH] using rev_ind; [done|].
  rewrite foldl_snoc, fmap_app, sum_list_with_app, IH. cbn.
  set (m := foldl _ _ l).
  assert (number_or (Map.get m c) 0 = default 0 (Map.get m c)) as ->.
  { by destruct (Map.get m c) as [[|n]|]. }
  pose proof (Map_weighted_sum_set m g c (default 0 (Map.get m c) + 1)).
  lia.
Qed.

Lemma string_length_foldr_app (l : list string) :
  String.length (foldr String.app "" l) = sum_list (String.length <$> l).
Proof.
  induction l as [|s l IH]; [done|].
  cbn. by rewrite string_length_app, IH.
Qed.

Lemma encoded_length_counts this text :
  String.length (encodeText this text) =
  sum_list
    ((λ kv, kv.2 * String.length (string_or (encodingMap this !! kv.1) ""))
       <$> calculateCharacterFrequencies text).
Proof.
  rewrite encodeText_foldr, string_length_foldr_app, <-list_fmap_compose.
  apply (counting_weighted_sum
           (λ c, String.length (string_or (encodingMap this !! c) ""))).
Qed.

(** X11: the length of the encoding of a text is the sum, over the entries
    of its frequency table, of the count times the length of the code that
    the table of the object has for the character (nothing for a character
    without a code). *)
Theorem X11_encoded_length this text :
  String.length (encodeText this text) =
  sum_list
    ((λ kv, kv.2 * String.length (string_or (encodingMap this !! kv.1) ""))
       <$> calculateCharacterFrequencies text).
Proof. apply encoded_length_counts. Qed.

(** ** The code table *)

Lemma compress_empty : encodingMap (compress "") = ∅ ∧ root (compress "") = None.
Proof. done. Qed.

Lemma leafAt_assignments node path c :
  leafAt node path c → ∀ code, (c, code +:+ path) ∈ assignments node code.
Proof.
  induction 1 as [c f Hc|f l r path c Hl IH|f l r path c Hr IH];
    intros code; cbn.
  - rewrite Hc, string_app_nil_r. apply list_elem_of_here.
  - apply elem_of_app. left.
    specialize (IH (code +:+ "0")). by rewrite string_app_assoc in IH.
  - apply elem_of_app. right.
    specialize (IH (code +:+ "1")). by rewrite string_app_assoc in IH.
Qed.

(** The leaves of the tree of a text hold characters of the text. *)
Lemma compress_leaf_chars text tree path c :
  root (compress text) = Some tree → leafAt tree path c → c ∈ chars text.
Proof.
  intros Hroot Hleaf.
  destruct (decide (distinctSymbols text = [])) as [Hnil|Hne].
  { apply distinctSymbols_nil in Hnil as ->. done. }
  destruct (compress_structure text Hne)
    as (tree' & zs & Hroot' & _ & _ & Hzs & Hperm & _).
  assert (tree' = tree) as -> by congruence.
  pose proof (leafAt_assignments _ _ _ Hleaf "") as Hin.
  rewrite Hperm in Hin.
  apply list_elem_of_fmap in Hin as (z & [= -> _] & Hz).
  assert (z.2 ∈ initialNodeQueue text)
    as (c & f & -> & Hc & _)%initial_queue_leaf; [|done].
  rewrite <-sort_by_frequency_Permutation, <-Hzs.
  by apply list_elem_of_fmap_2.
Qed.

(** What the code table of a text holds: a code for every character of the
    text and for no other, and each code is the path to a leaf with the
    character. *)
Lemma compress_table text c :
  (is_Some (encodingMap (compress text) !! c) ↔ c ∈ chars text) ∧
  ∀ code, encodingMap (compress text) !! c = Some code →
    ∃ tree, root (compress text) = Some tree ∧ wellFormed tree ∧
            leafAt tree code c.
Proof.
  destruct (decide (distinctSymbols text = [])) as [Hnil|Hne].
  { apply distinctSymbols_nil in Hnil as ->. split; [|done].
    split; [by intros [? ?]|by intros ?%elem_of_nil]. }
  destruct (compress_codes text Hne)
    as (tree & Hroot & Hwf & _ & Hsound & Hcomplete).
  split.
  - split; [|by apply Hcomplete].
    intros [code Hcode]. eapply compress_leaf_chars; eauto.
  - intros code Hcode. exists tree. auto.
Qed.

(** X12: the code table of a text has an entry for a character exactly
    when the character occurs in the text. *)
Theorem X12_table_domain text :
  dom (encodingMap (compress text)) = list_to_set (chars text).
Proof.
  apply set_eq. intros c.
  rewrite elem_of_dom, elem_of_list_to_set.
  apply compress_table.
Qed.

Lemma isBits_empty : isBits "".
Proof. unfold isBits. change (chars "") with (@nil string). constructor. Qed.

Lemma isBits_app s1 s2 : isBits s1 → isBits s2 → isBits (s1 +:+ s2).
Proof. unfold isBits. rewrite chars_app, Forall_app. done. Qed.

Lemma leafAt_isBits node path c : leafAt node path c → isBits path.
Proof.
  induction 1; [apply isBits_empty|..]; unfold isBits in *;
    rewrite chars_cons; constructor; auto.
Qed.

(** X13: an encoding under the code table of a text, of this text or of
    any other, consists of the characters [0] and [1] only. *)
Theorem X13_encoding_is_bits text inputText :
  isBits (encodeText (compress text) inputText).
Proof.
  rewrite encodeText_foldr.
  induction (chars inputText) as [|c l IH]; [apply isBits_empty|].
  rewrite fmap_cons. cbn [foldr]. apply isBits_app; [|done].
  destruct (encodingMap (compress text) !! c) as [code|] eqn:Hcode;
    [|apply isBits_empty].
  apply compress_table in Hcode as (tree & _ & _ & Hleaf).
  apply leafAt_isBits in Hleaf.
  destruct code; [apply isBits_empty|done].
Qed.

(** X14: when the text has two different characters or more, no code of
    its table is empty. *)
Theorem X14_codes_not_empty text c code :
  2 ≤ length (distinctSymbols text) →
  encodingMap (compress text) !! c = Some code →
  code ≠ "".
Proof.
  intros Htwo Hcode.
  assert (distinctSymbols text ≠ []) as Hne.
  { intros Hnil. rewrite Hnil in Htwo. cbn in Htwo. lia. }
  destruct (compress_codes text Hne)
    as (tree & _ & Hwf & Hcount & Hsound & _).
  apply Hsound in Hcode. intros ->.
  inv Hcode. cbn in Hcount. lia.
Qed.

Lemma X14_codes_not_empty_witness :
  (2 ≤ length (distinctSymbols "aaabbc") ∧
   encodingMap (compress "aaabbc") !! "a" = Some "0") ∧
  "0" ≠ "".
Proof.
  split; [split; [vm_compute; lia|by vm_compute]|].
  apply (X14_codes_not_empty "aaabbc" "a" "0"); [vm_compute; lia|].
  by vm_compute.
Defined.

(** ** Decoding what was encoded *)

(** Decoding the encoding of a sequence of characters yields those of the
    characters that the text of the table has. *)
Lemma decodeLoop_encoded text tree (l : list string) :
  root (compress text) = Some tree → character tree = "" →
  ∀ out,
    decodeLoop (Some tree)
      (chars (foldr String.app ""
                ((λ c, string_or (encodingMap (compress text) !! c) "")
                   <$> l)))
      (out, Some tree)
    = (out +:+ foldr String.app "" (filter (.∈ chars text) l), Some tree).
Proof.
  intros Hroot Htree. induction l as [|c l IH]; intros out.
  - cbn. by rewrite string_app_nil_r.
  - rewrite fmap_cons, filter_cons. cbn [foldr].
    destruct (compress_table text c) as [Hdom Hleaf].
    destruct (decide (c ∈ chars text)) as [Hc|Hc].
    + apply Hdom in Hc as [code Hcode]. rewrite Hcode.
      destruct (Hleaf code Hcode) as (tree' & Hroot' & _ & Hpath).
      assert (tree' = tree) as -> by congruence.
      assert (string_or (Some code) "" = code) as -> by (by destruct code).
      rewrite chars_app, (decodeLoop_leafAt _ _ _ _ Hpath Htree), IH.
      cbn [foldr]. by rewrite string_app_assoc.
    + assert (encodingMap (compress text) !! c = None) as ->.
      { apply eq_None_not_Some. by rewrite Hdom. }
      apply IH.
Qed.

(** X1: for a text with two different characters or more, decoding the
    encoding of the text returns the text. *)
Theorem X1_round_trip text :
  2 ≤ length (distinctSymbols text) →
  decodeText (compress text) (encodeText (compress text) text) = text.
Proof. apply roundTrip_two_symbols. Qed.

Lemma X1_round_trip_witness :
  2 ≤ length (distinctSymbols "aaabbc") ∧
  decodeText (compress "aaabbc") (encodeText (compress "aaabbc") "aaabbc")
    = "aaabbc".
Proof.
  split; [vm_compute; lia|].
  apply (X1_round_trip "aaabbc"). vm_compute. lia.
Defined.

(** X2: with the tree and the table of a text that has two different
    characters or more, decoding the encoding of any other text returns
    that text without the characters that do not occur in the first
    one. *)
Theorem X2_round_trip_other_text text inputText :
  2 ≤ length (distinctSymbols text) →
  decodeText (compress text) (encodeText (compress text) inputText) =
  foldr String.app "" (filter (.∈ chars text) (chars inputText)).
Proof.
  intros Htwo.
  assert (distinctSymbols text ≠ []) as Hne.
  { intros Hnil. rewrite Hnil in Htwo. cbn in Htwo. lia. }
  destruct (compress_codes text Hne) as (tree & Hroot & Hwf & Hcount & _).
  assert (character tree = "") as Hinternal.
  { destruct Hwf; [cbn in Hcount; lia|done]. }
  unfold decodeText. rewrite encodeText_foldr, Hroot.
  by rewrite (decodeLoop_encoded text tree _ Hroot Hinternal).
Qed.

Lemma X2_round_trip_other_text_witness :
  2 ≤ length (distinctSymbols "aaabbc") ∧
  decodeText (compress "aaabbc") (encodeText (compress "aaabbc") "cab?b")
    = "cabb".
Proof.
  split; [vm_compute; lia|].
  apply (X2_round_trip_other_text "aaabbc" "cab?b"). vm_compute. lia.
Defined.

(** ** The decoder on arbitrary bits *)


(** From a node without a character of a well-formed tree, the decoder
    stays on such nodes, and what it emits are characters of leaves. *)
Lemma decodeLoop_invariant tree (A : string → Prop) :
  wellFormed tree → character tree = "" →
  (∀ path c, leafAt tree path c → A c) →
  ∀ bits node out,
    wellFormed node → character node = "" →
    (∀ path c, leafAt node path c → A c) →
    ∃ emitted node',
      decodeLoop (Some tree) bits (out, Some node) =
        (out +:+ foldr String.app "" emitted, Some node') ∧
      Forall A emitted ∧ length emitted ≤ length bits ∧
      wellFormed node' ∧ character node' = "" ∧
      (∀ path c, leafAt node' path c → A c).
Proof.
  intros Hwf Htree HA. induction bits as [|bit bits IH];
    intros node out Hnode Hchar Hleaves.
  { exists [], node. rewrite string_app_nil_r. by split_and!. }
  destruct Hnode as [c f Hc|f l r Hl Hr]; [by cbn in Hchar; subst|].
  cbn [decodeLoop fst snd]. unfold decodeStep. cbn [leftChild rightChild].
  set (child := if decide (bit = "0") then Some l else Some r).
  assert (∃ n, child = Some n ∧ wellFormed n ∧
               ∀ path c, leafAt n path c → A c) as (n & -> & Hn & HnA).
  { unfold child. case_decide.
    - exists l. split_and!; [done..|]. intros path c Hp.
      apply (Hleaves (String "0" path)). by constructor.
    - exists r. split_and!; [done..|]. intros path c Hp.
      apply (Hleaves (String "1" path)). by constructor. }
  destruct Hn as [c f' Hc|f' l' r' Hl' Hr']; cbn [character].
  - rewrite Hc.
    destruct (IH tree (out +:+ c) Hwf Htree HA)
      as (emitted & node' & -> & Hem & Hlen & Hwf' & Hchar' & HA').
    exists (c :: emitted), node'. cbn [foldr].
    rewrite string_app_assoc. split_and!; [done| |cbn; lia|done..].
    constructor; [|done]. apply (HnA ""). by constructor.
  - cbn [truthy].
    destruct (IH (new_HuffmanTreeNode "" f' (Some l') (Some r')) out)
      as (emitted & node' & -> & Hem & Hlen & Hwf' & Hchar' & HA');
      [by constructor|done|done|].
    exists emitted, node'. split_and!; [done|done|cbn; lia|done..].
Qed.

(** X15: with the tree of a text that has two different characters or
    more, no bit sequence takes the decoder off the tree: after any bits
    its current node is a node of the tree. *)
Theorem X15_decoder_stays_on_tree text encodedText :
  2 ≤ length (distinctSymbols text) →
  is_Some (decodeLoop (root (compress text)) (chars encodedText)
             ("", root (compress text))).2.
Proof.
  intros Htwo.
  assert (distinctSymbols text ≠ []) as Hne.
  { intros Hnil. rewrite Hnil in Htwo. cbn in Htwo. lia. }
  destruct (compress_codes text Hne) as (tree & Hroot & Hwf & Hcount & _).
  assert (character tree = "") as Hinternal.
  { destruct Hwf; [cbn in Hcount; lia|done]. }
  rewrite Hroot.
  destruct (decodeLoop_invariant tree (λ _, True) Hwf Hinternal
              ltac:(done) (chars encodedText) tree "" Hwf Hinternal
              ltac:(done))
    as (emitted & node' & -> & _).
  by eexists.
Qed.

Lemma X15_decoder_stays_on_tree_witness :
  2 ≤ length (distinctSymbols "aaabbc") ∧
  is_Some (decodeLoop (root (compress "aaabbc")) (chars "1101")
             ("", root (compress "aaabbc"))).2.
Proof.
  split; [vm_compute; lia|].
  apply (X15_decoder_stays_on_tree "aaabbc" "1101"). vm_compute. lia.
Defined.




(** The bits of a proper beginning of a path to a leaf emit nothing and
    leave the decoder inside the tree. *)
Lemma decodeLoop_partial root node path rest c out :
  leafAt node (path +:+ rest) c → rest ≠ "" →
  ∃ node', decodeLoop root (chars path) (out, Some node) = (out, Some node').
Proof.
  revert node. induction path as [|b path IH]; intros node Hleaf Hrest.
  { by exists node. }
  rewrite string_app_cons in Hleaf. rewrite chars_cons.
  cbn [decodeLoop fst snd]. unfold decodeStep.
  assert (∀ child, leafAt child (path +:+ rest) c →
            truthy (character child) = false) as Hinner.
  { intros child Hchild. inv Hchild; [|done..].
    by destruct path, rest. }
  inv Hleaf.
  - rewrite decide_True by done. cbn [leftChild].
    rewrite Hinner by done. by apply IH.
  - rewrite decide_False by done. cbn [rightChild].
    rewrite Hinner by done. by apply IH.
Qed.

(** X17: with the tree and the table of a text that has two different
    characters or more, bits that follow an encoding and are only a proper
    beginning of a code are dropped by the decoder. *)
Theorem X17_incomplete_code_dropped text inputText c code rest :
  2 ≤ length (distinctSymbols text) →
  encodingMap (compress text) !! c = Some (code +:+ rest) →
  rest ≠ "" →
  decodeText (compress text) (encodeText (compress text) inputText +:+ code) =
  decodeText (compress text) (encodeText (compress text) inputText).
Proof.
  intros Htwo Hcode Hrest.
  assert (distinctSymbols text ≠ []) as Hne.
  { intros Hnil. rewrite Hnil in Htwo. cbn in Htwo. lia. }
  destruct (compress_codes text Hne)
    as (tree & Hroot & Hwf & Hcount & Hsound & _).
  assert (character tree = "") as Hinternal.
  { destruct Hwf; [cbn in Hcount; lia|done]. }
  unfold decodeText.
  rewrite chars_app, decodeLoop_app, encodeText_foldr, Hroot.
  rewrite (decodeLoop_encoded text tree _ Hroot Hinternal).
  destruct (decodeLoop_partial (Some tree) tree code rest c
              ("" +:+ foldr String.app ""
                        (filter (.∈ chars text) (chars inputText))))
    as (node' & ->); [by apply Hsound|done|done].
Qed.

Lemma X17_incomplete_code_dropped_witness :
  (2 ≤ length (distinctSymbols "aaabbc") ∧
   encodingMap (compress "aaabbc") !! "c" = Some ("1" +:+ "0") ∧
   "0" ≠ "") ∧
  decodeText (compress "aaabbc")
    (encodeText (compress "aaabbc") "abc" +:+ "1") =
  decodeText (compress "aaabbc") (encodeText (compress "aaabbc") "abc").
Proof.
  split; [split_and!; [vm_compute; lia|by vm_compute|done]|].
  apply (X17_incomplete_code_dropped "aaabbc" "abc" "c" "1" "0");
    [vm_compute; lia|by vm_compute|done].
Defined.

(** X18: an object without a tree decodes every bit sequence to the empty
    text. *)
Theorem X18_decode_without_tree this encodedText :
  root this = None → decodeText this encodedText = "".
Proof.
  unfold decodeText. intros ->. by destruct (chars encodedText).
Qed.

Lemma X18_decode_without_tree_witness :
  root new_HuffmanCompression = None ∧
  decodeText new_HuffmanCompression "0110" = "".
Proof.
  split; [done|]. by apply (X18_decode_without_tree _ "0110").
Defined.

Lemma decodeLoop_extends root bits out node :
  ∃ more, (decodeLoop root bits (out, node)).1 = out +:+ more.
Proof.
  revert out node. induction bits as [|bit bits IH]; intros out node.
  { exists "". by rewrite string_app_nil_r. }
  destruct node as [node|]; [|exists ""; by rewrite string_app_nil_r].
  cbn [decodeLoop fst snd]. unfold decodeStep.
  destruct (if decide (bit = "0") then leftChild node else rightChild node)
    as [child|]; [|apply IH].
  destruct (truthy (character child)); [|apply IH].
  destruct (IH (out +:+ character child) root) as [more ->].
  exists (character child +:+ more). by rewrite string_app_assoc.
Qed.

(** X19: for every tree, what the decoder returns for a bit sequence is
    the beginning of what it returns for any longer one: bits that follow
    only add to its result. *)
Theorem X19_decode_extends this bits1 bits2 :
  isPrefixOf (decodeText this bits1) (decodeText this (bits1 +:+ bits2)).
Proof.
  unfold decodeText. rewrite chars_app, decodeLoop_app.
  destruct (decodeLoop (root this) (chars bits1) ("", root this))
    as [out node].
  apply decodeLoop_extends.
Qed.

(** ** Depths of leaves and their cost *)

Lemma cost_Permutation (p1 p2 : list (nat * nat)) :
  p1 ≡ₚ p2 → cost p1 = cost p2.
Proof. unfold cost. by intros ->. Qed.

Lemma cost_cons w d (pairs : list (nat * nat)) :
  cost ((w, d) :: pairs) = w * d + cost pairs.
Proof. done. Qed.

Lemma kraft_Permutation ds1 ds2 : ds1 ≡ₚ ds2 → kraft ds1 → kraft ds2.
Proof. intros Hp (h & Hall & Hsum). exists h. by rewrite <-Hp. Qed.

(** Two leaves of the largest depth can be replaced by one leaf a level
    higher. *)
Lemma kraft_merge d ds : 1 ≤ d → kraft (d :: d :: ds) → kraft (d - 1 :: ds).
Proof.
  intros Hd (h & Hall & Hsum). exists h.
  apply Forall_cons_1 in Hall as [Hdh Hall].
  apply Forall_cons_1 in Hall as [_ Hall].
  split; [constructor; [lia|done]|].
  cbn in *. replace (h - (d - 1)) with (S (h - d)) by lia.
  rewrite Nat.pow_succ_r'. lia.
Qed.

Lemma kraft_sum_scaled h D (ds : list nat) :
  D ≤ h → Forall (λ d, d ≤ D) ds →
  sum_list ((λ d, 2 ^ (h - d)) <$> ds) =
  2 ^ (h - D) * sum_list ((λ d, 2 ^ (D - d)) <$> ds).
Proof.
  intros HD. induction 1 as [|d ds Hd _ IH]; cbn; [lia|].
  rewrite IH. replace (h - d) with ((h - D) + (D - d)) by lia.
  rewrite Nat.pow_add_r. lia.
Qed.

Lemma kraft_sum_parity D (ds : list nat) :
  1 ≤ D → Forall (λ d, d ≤ D) ds →
  ∃ q, sum_list ((λ d, 2 ^ (D - d)) <$> ds) =
       2 * q + length (filter (D =.) ds).
Proof.
  intros HD. induction 1 as [|d ds Hd _ [q IH]].
  { by exists 0. }
  rewrite fmap_cons. destruct (decide (D = d)) as [<-|Hne].
  - exists q. rewrite filter_cons_True by done.
    cbn. rewrite IH, Nat.sub_diag. cbn. lia.
  - exists (2 ^ (D - d - 1) + q). rewrite filter_cons_False by done.
    assert (2 ^ (D - d) = 2 * 2 ^ (D - d - 1)) as Hpow.
    { rewrite <-Nat.pow_succ_r'. f_equal. lia. }
    cbn. rewrite IH, Hpow. lia.
Qed.

(** In a tree with two leaves or more, two leaves have the largest depth,
    and it is not zero. *)
Lemma kraft_two_deepest (ds : list nat) :
  kraft ds → 2 ≤ length ds →
  1 ≤ max_list ds ∧ ∃ rest, ds ≡ₚ max_list ds :: max_list ds :: rest.
Proof.
  intros (h & Hall & Hsum) Hlen.
  set (D := max_list ds).
  assert (ds ≠ []) as Hne by (intros ->; cbn in Hlen; lia).
  assert (D ∈ ds) as HD by (by apply max_list_elem_of).
  assert (Forall (λ d, d ≤ D) ds) as HallD.
  { apply Forall_forall. intros d Hd. by apply max_list_elem_of_le. }
  assert (D ≤ h) as HDh.
  { by apply (proj1 (Forall_forall _ _) Hall). }
  rewrite (kraft_sum_scaled h D ds HDh HallD) in Hsum.
  assert (sum_list ((λ d, 2 ^ (D - d)) <$> ds) = 2 ^ D) as Hnorm.
  { replace (2 ^ h) with (2 ^ (h - D) * 2 ^ D) in Hsum.
    - apply Nat.mul_cancel_l in Hsum; [done|].
      apply Nat.pow_nonzero. lia.
    - rewrite <-Nat.pow_add_r. f_equal. lia. }
  assert (1 ≤ D) as Hpos.
  { destruct (decide (D = 0)) as [H0|]; [|lia]. exfalso.
    rewrite H0 in Hnorm, HallD.
    assert (sum_list ((λ d, 2 ^ (0 - d)) <$> ds) = length ds) as Hones.
    { clear. induction ds as [|d ds IH]; cbn; [done|]. by rewrite IH. }
    rewrite Hones in Hnorm. cbn in Hnorm. lia. }
  split; [done|].
  destruct (kraft_sum_parity D ds Hpos HallD) as [q Hq].
  rewrite Hnorm in Hq.
  replace D with (S (D - 1)) in Hq at 1 by lia.
  rewrite Nat.pow_succ_r' in Hq.
  assert (Forall (D =.) (filter (D =.) ds)) as Hsame.
  { apply Forall_forall. by intros d [? _]%list_elem_of_filter. }
  assert (D ∈ filter (D =.) ds) as Hin by (by apply list_elem_of_filter).
  pose proof (filter_app_complement (D =.) ds) as Hperm.
  destruct (filter (D =.) ds) as [|d1 [|d2 deep]].
  - by apply elem_of_nil in Hin.
  - cbn in Hq. lia.
  - apply Forall_cons_1 in Hsame as [<- Hsame].
    apply Forall_cons_1 in Hsame as [<- _].
    eexists. symmetry. exact Hperm.
Qed.

(** Giving the largest depth to a lightest weight does not cost more. *)
Lemma deepest_to_lightest w d D (pairs : list (nat * nat)) :
  Forall (λ p, w ≤ p.1 ∧ p.2 ≤ D) pairs → d ≤ D →
  D ∈ d :: pairs.*2 →
  ∃ pairs',
    pairs'.*1 ≡ₚ pairs.*1 ∧
    D :: pairs'.*2 ≡ₚ d :: pairs.*2 ∧
    w * D + cost pairs' ≤ w * d + cost pairs.
Proof.
  intros Hall Hd HD.
  destruct (decide (d = D)) as [->|Hne]; [by exists pairs|].
  apply elem_of_cons in HD as [?|HD]; [done|].
  apply list_elem_of_fmap in HD as ([wa da] & -> & Hin).
  apply elem_of_Permutation in Hin as [others Hperm].
  rewrite Hperm in Hall. apply Forall_cons_1 in Hall as [[Hwa _] _].
  cbn in *.
  exists ((wa, d) :: others). split_and!.
  - by rewrite Hperm.
  - rewrite Hperm. cbn. apply Permutation_swap.
  - rewrite (cost_Permutation _ _ Hperm), !cost_cons. nia.
Qed.

(** From depths for a list of weights to depths for the list in which the
    two lightest weights are replaced by their sum: the cost goes down by
    at least that sum. *)
Lemma merge_lightest (pairs : list (nat * nat)) w1 w2 ws :
  pairs.*1 ≡ₚ w1 :: w2 :: ws →
  w1 ≤ w2 → Forall (λ w, w2 ≤ w) ws →
  kraft pairs.*2 →
  ∃ pairs',
    pairs'.*1 ≡ₚ ws ++ [w1 + w2] ∧
    kraft pairs'.*2 ∧
    cost pairs' + w1 + w2 ≤ cost pairs.
Proof.
  intros Hweights H12 Hws Hkraft.
  symmetry in Hweights.
  apply Permutation_map_inv in Hweights as (sorted & Hsorted & Hperm).
  destruct sorted as [|[w1' d1] [|[w2' d2] others]]; [done..|].
  injection Hsorted as <- <- Hothers.
  change (ws = others.*1) in Hothers.
  apply (kraft_Permutation _ _ (fmap_Permutation snd _ _ Hperm)) in Hkraft.
  rewrite (cost_Permutation _ _ Hperm). clear pairs Hperm. cbn in Hkraft.
  destruct (kraft_two_deepest _ Hkraft) as [Hpos [deep Hdeep]];
    [cbn; lia|].
  remember (max_list (d1 :: d2 :: others.*2)) as D eqn:HD.
  assert (∀ d, d ∈ d1 :: d2 :: others.*2 → d ≤ D) as Hmax.
  { intros d Hd. subst D. by apply max_list_elem_of_le. }
  clear HD.
  (* the lightest weight goes to the largest depth *)
  destruct (deepest_to_lightest w1 d1 D ((w2, d2) :: others))
    as (pairs1 & Hw1 & Hd1 & Hc1).
  { constructor; cbn.
    - split; [done|]. apply Hmax. set_solver.
    - apply Forall_forall. intros [w d] Hin. cbn. split.
      + assert (w2 ≤ w); [|lia].
        apply (proj1 (Forall_forall _ _) Hws). rewrite Hothers.
        by apply (list_elem_of_fmap_2 fst) in Hin.
      + apply Hmax. do 2 apply list_elem_of_further.
        by apply (list_elem_of_fmap_2 snd) in Hin. }
  { apply Hmax. set_solver. }
  { rewrite Hdeep. set_solver. }
  cbn in Hw1, Hd1.
  (* so does the second lightest *)
  symmetry in Hw1.
  apply Permutation_map_inv in Hw1 as (sorted & Hsorted & Hperm).
  destruct sorted as [|[w2' d2'] others']; [done|].
  injection Hsorted as <- Hothers'.
  change (others.*1 = others'.*1) in Hothers'.
  rewrite (cost_Permutation _ _ Hperm) in Hc1.
  rewrite (fmap_Permutation snd _ _ Hperm) in Hd1. cbn in Hd1.
  clear pairs1 Hperm.
  assert (D :: d2' :: others'.*2 ≡ₚ D :: D :: deep) as Hdeep'.
  { by rewrite Hd1, <-Hdeep. }
  apply Permutation_cons_inv in Hdeep'.
  assert (∀ d, d ∈ d2' :: others'.*2 → d ≤ D) as Hmax'.
  { intros d Hd. apply Hmax. rewrite <-Hd1. by apply list_elem_of_further. }
  destruct (deepest_to_lightest w2 d2' D others')
    as (pairs2 & Hw2 & Hd2 & Hc2).
  { apply Forall_forall. intros [w d] Hin. cbn. split.
    - apply (proj1 (Forall_forall _ _) Hws).
      rewrite Hothers, Hothers'. by apply (list_elem_of_fmap_2 fst) in Hin.
    - apply Hmax'. apply list_elem_of_further.
      by apply (list_elem_of_fmap_2 snd) in Hin. }
  { apply Hmax'. set_solver. }
  { rewrite Hdeep'. set_solver. }
  (* and the two become one, a level higher *)
  exists (pairs2 ++ [(w1 + w2, D - 1)]). split_and!.
  - by rewrite fmap_app, Hw2, Hothers, Hothers'.
  - rewrite fmap_app. cbn.
    apply (kraft_Permutation (D - 1 :: pairs2.*2));
      [by rewrite Permutation_app_comm|].
    apply kraft_merge; [done|].
    apply (kraft_Permutation (d1 :: d2 :: others.*2)); [|done].
    rewrite <-Hd1. constructor. by symmetry.
  - rewrite (cost_Permutation _ ((w1 + w2, D - 1) :: pairs2))
      by (by rewrite Permutation_app_comm).
    rewrite !cost_cons in *. nia.
Qed.

(** ** No tree gives a shorter encoding *)

Lemma weighted_frequency node :
  weighted node →
  sum_list ((λ z, frequency z.1) <$> leavesFrom node 0) = frequency node.
Proof.
  induction 1 as [c f|c l r Hl IHl Hr IHr Hle]; [by cbn; lia|].
  cbn. rewrite fmap_app, sum_list_with_app.
  rewrite (leavesFrom_shift l 1), (leavesFrom_shift r 1).
  rewrite <-!list_fmap_compose. cbn. by rewrite <-IHl, <-IHr.
Qed.

Lemma weightedLength_shift (l : list (HuffmanTreeNode * nat)) :
  sum_list ((λ z, frequency z.1 * z.2) <$> ((λ z, (z.1, z.2 + 1)) <$> l)) =
  sum_list ((λ z, frequency z.1 * z.2) <$> l) +
  sum_list ((λ z, frequency z.1) <$> l).
Proof. induction l as [|[n d] l IH]; cbn in *; [done|]. lia. Qed.

Lemma weightedLength_internal c f l r :
  weighted l → weighted r →
  weightedLength (new_HuffmanTreeNode c f (Some l) (Some r)) =
  weightedLength l + weightedLength r + frequency l + frequency r.
Proof.
  intros Hl%weighted_frequency Hr%weighted_frequency.
  unfold weightedLength. cbn [leavesFrom].
  rewrite fmap_app, sum_list_with_app.
  rewrite (leavesFrom_shift l 1), (leavesFrom_shift r 1).
  rewrite !weightedLength_shift, Hl, Hr. lia.
Qed.

(** The loop on a queue of merge trees: for any depths that a tree could
    give to the nodes of the queue, the tree that the loop builds costs no
    more than what the nodes cost inside plus what these depths cost. *)
Lemma buildLoop_optimal fuel queue :
  queue ≠ [] → length queue ≤ S fuel → Forall weighted queue →
  ∀ pairs : list (nat * nat),
    pairs.*1 ≡ₚ frequency <$> queue → kraft pairs.*2 →
    ∃ tree, buildLoop fuel queue = [tree] ∧
            weightedLength tree ≤
              sum_list (weightedLength <$> queue) + cost pairs.
Proof.
  revert queue. induction fuel as [|fuel IH];
    intros queue Hne Hlen Hw pairs Hweights Hkraft.
  { destruct queue as [|node [|??]]; [done| |cbn in Hlen; lia].
    exists node. split; [done|]. cbn. lia. }
  rewrite buildLoop_S. case_decide as Hlong.
  2: { destruct queue as [|node [|??]]; [done| |cbn in Hlong; lia].
       exists node. split; [done|]. cbn. lia. }
  pose proof (sort_by_frequency_sorted queue) as Hsorted.
  pose proof (sort_by_frequency_Permutation queue) as Hperm.
  destruct (sort_by_frequency queue) as [|l [|r rest]].
  1,2: apply Permutation_length in Hperm; cbn in *; lia.
  rewrite <-Hperm in Hw, Hweights.
  pose proof (Permutation_length Hperm) as Hlen'.
  apply Forall_cons_1 in Hw as [Hl Hw].
  apply Forall_cons_1 in Hw as [Hr Hw].
  apply StronglySorted_cons in Hsorted as [Hlr Hsorted].
  apply Forall_cons_1 in Hlr as [Hlr _].
  apply StronglySorted_cons in Hsorted as [Hrest _].
  destruct (merge_lightest pairs (frequency l) (frequency r)
              (frequency <$> rest))
    as (pairs' & Hweights' & Hkraft' & Hcost); [done..| |done|].
  { by apply Forall_fmap. }
  destruct (IH (rest ++ [new_HuffmanTreeNode ""
                  (frequency l + frequency r) (Some l) (Some r)]))
    with (pairs := pairs') as (tree & Hloop & Hle).
  - by destruct rest.
  - rewrite length_app. cbn in *. lia.
  - apply Forall_app. split; [done|]. repeat constructor; done.
  - by rewrite fmap_app.
  - done.
  - exists tree. split; [done|].
    rewrite fmap_app, sum_list_with_app in Hle.
    change (sum_list (weightedLength <$> [?p]))
      with (weightedLength p + 0) in Hle.
    rewrite weightedLength_internal in Hle by done.
    rewrite <-Hperm.
    change (sum_list (weightedLength <$> l :: r :: rest)) with
      (weightedLength l +
       (weightedLength r + sum_list (weightedLength <$> rest))).
    lia.
Qed.

Lemma kraft_leavesFrom node :
  wellFormed node →
  ∃ height, ∀ depth h, depth + height ≤ h →
    Forall (λ d, d ≤ h) (leavesFrom node depth).*2 ∧
    sum_list ((λ d, 2 ^ (h - d)) <$> (leavesFrom node depth).*2) =
      2 ^ (h - depth).
Proof.
  induction 1 as [c f Hc|f l r Hl [hl IHl] Hr [hr IHr]].
  - exists 0. intros depth h Hh. cbn. split; [repeat constructor; lia|lia].
  - exists (S (hl `max` hr)). intros depth h Hh. cbn [leavesFrom].
    destruct (IHl (S depth) h ltac:(lia)) as [Hall1 Hsum1].
    destruct (IHr (S depth) h ltac:(lia)) as [Hall2 Hsum2].
    rewrite !fmap_app, sum_list_with_app, Hsum1, Hsum2.
    split; [by apply Forall_app|].
    replace (h - depth) with (S (h - S depth)) by lia.
    rewrite Nat.pow_succ_r'. lia.
Qed.

Lemma kraft_leaves node : wellFormed node → kraft (leavesFrom node 0).*2.
Proof.
  intros [height Hk]%kraft_leavesFrom. exists height.
  destruct (Hk 0 height ltac:(lia)) as [Hall Hsum].
  split; [done|]. by rewrite Hsum, Nat.sub_0_r.
Qed.

(** For a well-formed tree, the assignments are those of the characters of
    the leaves, each with a code as long as the leaf is deep. *)
Lemma assignments_leavesFrom node :
  wellFormed node →
  ∀ code,
    (λ kv, (kv.1, String.length kv.2)) <$> assignments node code =
    (λ z, (character z.1, z.2)) <$> leavesFrom node (String.length code).
Proof.
  induction 1 as [c f Hc|f l r Hl IHl Hr IHr]; intros code; cbn.
  - by rewrite Hc.
  - rewrite !fmap_app, IHl, IHr, !string_length_app. cbn.
    by rewrite !Nat.add_1_r.
Qed.

Lemma assign_lookup_NoDup m (l : list (string * string)) k v :
  NoDup l.*1 → (k, v) ∈ l → assign m l !! k = Some v.
Proof.
  intros Hnd Hin.
  destruct (assign_lookup_elem_of m l k) as (v' & Hin' & ->).
  { apply list_elem_of_fmap. by exists (k, v). }
  f_equal. revert Hnd Hin Hin'. clear.
  induction l as [|[k0 v0] l IH]; [by intros _ ?%elem_of_nil|].
  cbn. intros [Hk0 Hnd]%NoDup_cons Hin Hin'.
  apply elem_of_cons in Hin as [Heq|Hin], Hin' as [Heq'|Hin'].
  - congruence.
  - injection Heq as -> ->. destruct Hk0.
    apply list_elem_of_fmap. by exists (k0, v').
  - injection Heq' as -> ->. destruct Hk0.
    apply list_elem_of_fmap. by exists (k0, v).
  - by apply IH.
Qed.

Lemma keys_distinctSymbols text :
  (calculateCharacterFrequencies text).*1 ≡ₚ distinctSymbols text.
Proof.
  destruct (calculateCharacterFrequencies_counted text) as [Hnd Hkeys _ _].
  apply NoDup_Permutation; [done|apply NoDup_remove_dups|].
  intros c. unfold distinctSymbols. by rewrite elem_of_remove_dups.
Qed.

(** The length of the encoding of a text under the codes of a well-formed
    tree with one leaf for each different character. *)
Lemma encoded_length_tree text tree :
  wellFormed tree →
  (λ z, character z.1) <$> leavesFrom tree 0 ≡ₚ distinctSymbols text →
  String.length
    (encodeText (generateHuffmanCodes (mkHuffmanCompression (Some tree) ∅))
       text) =
  cost ((λ z, (occurrences (character z.1) text, z.2))
          <$> leavesFrom tree 0).
Proof.
  intros Hwf Hchars. rewrite encoded_length_counts.
  set (len := λ k, String.length (string_or
    (encodingMap (generateHuffmanCodes
                    (mkHuffmanCompression (Some tree) ∅)) !! k) "")).
  transitivity (sum_list ((λ k, occurrences k text * len k)
                            <$> (calculateCharacterFrequencies text).*1)).
  { rewrite <-list_fmap_compose. f_equal.
    apply list_fmap_ext. intros i [k v] Hkv. cbn.
    apply list_elem_of_lookup_2 in Hkv.
    destruct (calculateCharacterFrequencies_counted text)
      as [Hnd _ Hocc _].
    apply (Map_elem_of_get _ _ _ Hnd) in Hkv.
    specialize (Hocc k). rewrite Hkv in Hocc. cbn in Hocc.
    unfold occurrences. by rewrite <-Hocc. }
  rewrite keys_distinctSymbols, <-Hchars, <-list_fmap_compose.
  unfold cost. rewrite <-list_fmap_compose. f_equal.
  apply list_fmap_ext. intros i [leaf d] Hz. cbn. f_equal.
  apply list_elem_of_lookup_2 in Hz.
  assert (NoDup (assignments tree "").*1) as Hnd.
  { assert ((assignments tree "").*1 =
            (λ z, character z.1) <$> leavesFrom tree 0) as ->.
    { pose proof (assignments_leavesFrom tree Hwf "") as Heq.
      apply (f_equal (fmap fst)) in Heq.
      by rewrite <-!list_fmap_compose in Heq. }
    rewrite Hchars. apply NoDup_remove_dups. }
  assert ((character leaf, d) ∈
          (λ kv, (kv.1, String.length kv.2)) <$> assignments tree "")
    as ([k code] & [= Hk Hd] & Hin)%list_elem_of_fmap.
  { rewrite assignments_leavesFrom by done. cbn.
    apply list_elem_of_fmap. by exists (leaf, d). }
  cbn in Hk, Hd. subst k d. unfold len, generateHuffmanCodes.
  cbn [encodingMap root generateCodesRecursively].
  rewrite generateCodesFrom_assign.
  rewrite (assign_lookup_NoDup _ _ _ _ Hnd Hin).
  by destruct code.
Qed.

Lemma compress_withTree text tree :
  root (compress text) = Some tree →
  compress text = generateHuffmanCodes (mkHuffmanCompression (Some tree) ∅).
Proof.
  unfold compress, generateHuffmanCodes. cbn [root]. by intros ->.
Qed.

(** The tree of a text: what the loop returns for the initial queue, with
    the entries of the frequency table at its leaves. *)
Lemma compress_tree text tree :
  root (compress text) = Some tree →
  buildLoop (length (initialNodeQueue text)) (initialNodeQueue text)
    = [tree] ∧
  weighted tree ∧
  leaves tree ≡ₚ calculateCharacterFrequencies text.
Proof.
  unfold compress, generateHuffmanCodes, buildHuffmanTree. cbn [root].
  fold (initialNodeQueue text). intros Hroot.
  destruct (initial_queue_weights text) as (Hw & _ & Hleaves).
  destruct (buildLoop_weights (length (initialNodeQueue text))
              (initialNodeQueue text) Hw) as (Hw' & _ & Hleaves').
  pose proof (buildLoop_terminates (length (initialNodeQueue text))
                (initialNodeQueue text) ltac:(lia)) as Hone.
  rewrite Hleaves in Hleaves'.
  destruct (buildLoop _ _) as [|tree' [|??]]; [done| |cbn in Hone; lia].
  cbn in Hroot. injection Hroot as ->.
  rewrite bind_singleton in Hleaves'.
  split_and!; [done|by apply Forall_inv in Hw'|done].
Qed.

Lemma initial_queue_weightedLength (frequencyMap : Map.t) :
  sum_list (weightedLength <$> createInitialNodeQueue frequencyMap) = 0.
Proof.
  unfold createInitialNodeQueue, Map.entries.
  induction frequencyMap as [|[k v] m IH]; [done|].
  rewrite !fmap_cons.
  change (sum_list (weightedLength ?n :: ?l))
    with (weightedLength n + sum_list l).
  rewrite IH. unfold weightedLength. cbn. lia.
Qed.

Lemma kraft_nil : ¬ kraft [].
Proof.
  intros (h & _ & Hsum). cbn in Hsum.
  pose proof (Nat.pow_nonzero 2 h). lia.
Qed.

(** X20: no well-formed tree with one leaf for each different character of
    a text gives the text a shorter encoding than the tree that
    [buildHuffmanTree] builds for it. *)
Theorem X20_no_shorter_encoding text other :
  wellFormed other →
  (λ z, character z.1) <$> leavesFrom other 0 ≡ₚ distinctSymbols text →
  String.length (encodeText (compress text) text) ≤
  String.length
    (encodeText (generateHuffmanCodes (mkHuffmanCompression (Some other) ∅))
       text).
Proof.
  intros Hwf Hchars.
  pose proof (kraft_leaves other Hwf) as Hkraft.
  assert (initialNodeQueue text ≠ []) as Hne.
  { intros Hnil. apply (f_equal length) in Hnil.
    rewrite initial_queue_length, <-Hchars, length_fmap in Hnil.
    apply nil_length_inv in Hnil. rewrite Hnil in Hkraft.
    by apply kraft_nil in Hkraft. }
  destruct (initial_queue_weights text) as (Hw & _ & _).
  set (pairs := (λ z, (occurrences (character z.1) text, z.2))
                  <$> leavesFrom other 0).
  destruct (buildLoop_optimal (length (initialNodeQueue text))
              (initialNodeQueue text) Hne ltac:(lia) Hw pairs)
    as (tree & Hloop & Hle).
  { unfold pairs, initialNodeQueue. rewrite initial_queue_first_occurrences.
    rewrite <-!list_fmap_compose.
    rewrite <-(counting_keys (chars text)).
    fold (calculateCharacterFrequencies text).
    rewrite keys_distinctSymbols, <-Hchars, <-list_fmap_compose. done. }
  { unfold pairs. by rewrite <-list_fmap_compose. }
  assert (root (compress text) = Some tree) as Hroot.
  { unfold compress, generateHuffmanCodes, buildHuffmanTree. cbn [root].
    fold (initialNodeQueue text). by rewrite Hloop. }
  destruct (compress_tree text tree Hroot) as (_ & Hweighted & Hleaves).
  destruct (compress_codes text) as (tree' & Hroot' & Hwf' & _).
  { intros Hnil. apply Hne, nil_length_inv.
    by rewrite initial_queue_length, Hnil. }
  assert (tree' = tree) as -> by congruence.
  unfold initialNodeQueue in Hle at 1.
  rewrite initial_queue_weightedLength in Hle.
  rewrite (encoded_length_tree text other Hwf Hchars). fold pairs.
  rewrite (compress_withTree text tree Hroot).
  rewrite (encoded_length_tree text tree Hwf').
  - assert (cost ((λ z, (occurrences (character z.1) text, z.2))
                    <$> leavesFrom tree 0) = weightedLength tree) as ->;
      [|lia].
    unfold cost, weightedLength. rewrite <-list_fmap_compose. f_equal.
    apply list_fmap_ext. intros i [leaf d] Hz. cbn. f_equal.
    apply list_elem_of_lookup_2 in Hz.
    assert ((character leaf, frequency leaf) ∈
            calculateCharacterFrequencies text) as Hin.
    { rewrite <-Hleaves. unfold leaves.
      apply list_elem_of_fmap. by exists (leaf, d). }
    destruct (calculateCharacterFrequencies_counted text)
      as [Hnd _ Hocc _].
    apply (Map_elem_of_get _ _ _ Hnd) in Hin.
    specialize (Hocc (character leaf)). rewrite Hin in Hocc.
    unfold occurrences. by rewrite <-Hocc.
  - rewrite <-keys_distinctSymbols, <-Hleaves. unfold leaves.
    by rewrite <-list_fmap_compose.
Qed.

Lemma X20_no_shorter_encoding_witness :
  let other :=
    new_HuffmanTreeNode "" 0
      (Some (new_HuffmanTreeNode "b" 0 None None))
      (Some (new_HuffmanTreeNode "" 0
               (Some (new_HuffmanTreeNode "a" 0 None None))
               (Some (new_HuffmanTreeNode "c" 0 None None)))) in
  (wellFormed other ∧
   (λ z, character z.1) <$> leavesFrom other 0
     ≡ₚ distinctSymbols "aaabbc") ∧
  String.length (encodeText (compress "aaabbc") "aaabbc") ≤
  String.length
    (encodeText (generateHuffmanCodes (mkHuffmanCompression (Some other) ∅))
       "aaabbc").
Proof.
  intros other.
  assert (wellFormed other) as Hwf by (by repeat constructor).
  assert ((λ z, character z.1) <$> leavesFrom other 0
            ≡ₚ distinctSymbols "aaabbc") as Hchars.
  { vm_compute. apply Permutation_swap. }
  split; [done|].
  by apply (X20_no_shorter_encoding "aaabbc" other).
Defined.
